(** * Contextual retrieval with llama-index: a shallow embedding

    The notebook [contextual_retrieval.ipynb] defines three pieces of
    logic of its own:

    - [LlamaIndexContextualEnrichment.__call__], the enrichment pass that
      attaches a generated "context" string to a copy of every chunk;
    - [LlamaIndexEmbeddingBM25RerankerRetriever._retrieve], the hybrid
      retriever;
    - [llama_index_evaluation_print_results], the aggregation of the
      per-question evaluation results.

    Everything else is a call into a library (requests, html2text, the
    generation model, the two sub-retrievers, the reranker, pandas).  The
    library calls are modelled as oracles of a [World]; every call is
    recorded in a trace, so that statements about how often and in which
    order the code calls its collaborators can be made and proved. *)

From stdpp Require Import gmap strings list fin_maps sorting.
From Stdlib Require Import QArith.

Local Close Scope Q_scope.
Local Open Scope string_scope.
Local Open Scope list_scope.

(** ** Python exceptions and an error/state monad *)

(** The exceptions that can come up.  [InvalidReference] is not one of
    Python's: it stands for the use of a reference that points to no
    object, which no Python value does; the statements below are about
    stores in which the arguments are references to objects. *)
Inductive PyExn : Type :=
| UnboundLocalError (var : string)
| KeyError (key : string)
| RequestException (url : string)
| GenerationError (prompt : string)
| RetrievalError (stage : string)
| InvalidReference (l : nat).

Global Instance PyExn_eq_dec : EqDecision PyExn.
Proof. solve_decision. Defined.

(** A computation over a store [S]: it ends with a value or with a raised
    exception, and in both cases leaves a store behind. *)
Definition Eff (S A : Type) : Type := S → (PyExn + A) * S.

Definition eff_ret {S A} (a : A) : Eff S A := λ σ, (inr a, σ).

Definition eff_bind {S A B} (m : Eff S A) (k : A → Eff S B) : Eff S B :=
  λ σ, match m σ with
       | (inr a, σ') => k a σ'
       | (inl e, σ') => (inl e, σ')
       end.

Definition raise {S A} (e : PyExn) : Eff S A := λ σ, (inl e, σ).

Global Instance Eff_ret S : MRet (Eff S) := λ A, @eff_ret S A.
Global Instance Eff_bind S : MBind (Eff S) := λ A B k m, @eff_bind S A B m k.

(** [for x in xs: acc = body acc x], stopping at the first exception. *)
Fixpoint for_each {S A X} (body : A → X → Eff S A) (xs : list X) (acc : A)
  : Eff S A :=
  match xs with
  | [] => mret acc
  | x :: xs' => acc' ← body acc x; for_each body xs' acc'
  end.

(** ** Objects and collaborators

    Python objects that the code copies or changes in place live in a heap
    and are passed around by reference.  Calls to collaborators (network,
    models, sub-retrievers) are written to a trace. *)

Abbreviation loc := nat.

Record Store (X E : Type) : Type := {
  heap : list X;
  trace : list E
}.
Arguments heap {X E} _.
Arguments trace {X E} _.

Section Primitives.

Context {X E : Type}.

Definition deref (l : loc) : Eff (Store X E) X :=
  λ σ, match heap σ !! l with
       | Some x => (inr x, σ)
       | None => (inl (InvalidReference l), σ)
       end.

Definition alloc (x : X) : Eff (Store X E) loc :=
  λ σ, (inr (length (heap σ)),
        {| heap := heap σ ++ [x]; trace := trace σ |}).

Definition store (l : loc) (x : X) : Eff (Store X E) unit :=
  λ σ, (inr tt, {| heap := <[l := x]> (heap σ); trace := trace σ |}).

Definition log (e : E) (σ : Store X E) : Store X E :=
  {| heap := heap σ; trace := trace σ ++ [e] |}.

Definition emit (e : E) : Eff (Store X E) unit :=
  λ σ, (inr tt, log e σ).

(** A call to a collaborator.  Its answer may depend on the calls made so
    far; the answer is logged; [None] stands for a raised exception. *)
Definition call {A} (answer : list E → option A) (ev : option A → E)
  (e : PyExn) : Eff (Store X E) A :=
  λ σ, let r := answer (trace σ) in
       match r with
       | Some a => (inr a, log (ev r) σ)
       | None => (inl e, log (ev r) σ)
       end.

End Primitives.

(** ** The contextual enricher *)

Module Enricher.

(** *** Data model (llama_index.core.schema, as far as the code reads it) *)

Inductive NodeRelationship : Type := SOURCE | PREVIOUS | NEXT | PARENT | CHILD.

Global Instance NodeRelationship_eq_dec : EqDecision NodeRelationship.
Proof. solve_decision. Defined.

(** [str(r)] of the enum member. *)
Definition str (r : NodeRelationship) : string :=
  match r with
  | SOURCE => "NodeRelationship.SOURCE"
  | PREVIOUS => "NodeRelationship.PREVIOUS"
  | NEXT => "NodeRelationship.NEXT"
  | PARENT => "NodeRelationship.PARENT"
  | CHILD => "NodeRelationship.CHILD"
  end.

(** What a relationship points to; the code reads its [node_id] only. *)
Record RelatedNodeInfo : Type := { rel_node_id : string }.

(** A chunk.  [relationships] is a dict; it is kept as an association list
    in insertion order, which is the order [for r in d] visits the keys. *)
Record TextNode : Type := {
  node_id : string;
  text : string;
  metadata : gmap string string;
  relationships : list (NodeRelationship * RelatedNodeInfo)
}.

(** [d[r]] on the relationships dict. *)
Fixpoint relationships_get (d : list (NodeRelationship * RelatedNodeInfo))
  (r : NodeRelationship) : option RelatedNodeInfo :=
  match d with
  | [] => None
  | (k, v) :: d' => if decide (k = r) then Some v else relationships_get d' r
  end.

(** [node.metadata['context'] = v] *)
Definition set_context (n : TextNode) (v : string) : TextNode :=
  {| node_id := node_id n;
     text := text n;
     metadata := <["context" := v]> (metadata n);
     relationships := relationships n |}.

(** *** Effects *)

Inductive Event : Type :=
| EvPrint (id : string) (current total : nat)
| EvGet (url : string) (response : option string)
| EvComplete (prompt : string) (response : option string).

Global Instance Event_eq_dec : EqDecision Event.
Proof. solve_decision. Defined.

(** The collaborators.  [requests_get] and [llm_complete] are network
    calls: their answer may depend on everything that happened before, and
    [None] stands for a raised exception.  [html2text] is a pure function. *)
Record World : Type := {
  requests_get : list Event → string → option string;
  html2text : string → string;
  llm_complete : list Event → string → option string
}.

Abbreviation NodeStore := (Store TextNode Event).
Abbreviation M := (Eff NodeStore).

(** [copy.deepcopy(node)]: a new object with equal contents. *)
Definition deepcopy (l : loc) : M loc :=
  n ← deref l; alloc n.

(** [print(f"enriching node: ...")] *)
Definition print (id : string) (current total : nat) : M unit :=
  emit (EvPrint id current total).

Section WithWorld.

Variable W : World.

(** [requests.get(url).text] *)
Definition get_text (url : string) : M string :=
  call (λ tr, requests_get W tr url) (EvGet url) (RequestException url).

(** [Settings.llm.complete(prompt).text] *)
Definition complete_text (prompt : string) : M string :=
  call (λ tr, llm_complete W tr prompt) (EvComplete prompt)
       (GenerationError prompt).

(** The f-string of the prompt. *)
Definition prompt_template (whole_document chunk_text : string) : string :=
  "
                ## Here is the source document:
                <document>
                " ++ whole_document ++ "
                </document>
                ## Here is the chunk we want to situate within the whole document
                <chunk>
                " ++ chunk_text ++ "
                </chunk>
                ## Your role
                You are a financial document analysis specialist with expertise in annual shareholder letters,
                particularly those from Amazon.
                ## Your Task
                Your task is to analyze the <chunk> from an Amazon shareholder
                letter written by Amazon CEO and enhance its searchability and context.
                Please give a short succinct context to situate this chunk within the overall document for the purposes of improving search retrieval of the chunk. 
                Answer only with the succinct context and nothing else.
            ".

(** The local variables of [__call__] that outlive one loop iteration.
    [source_url] is [None] while the name is still unbound. *)
Record Locals : Type := {
  web_page_content : gmap string string;
  source_url : option string;
  node_current_index : nat;
  nodes_new : list loc
}.

(** [d[k]] on the cache. *)
Definition cache_get (d : gmap string string) (k : string) : M string :=
  match d !! k with
  | Some v => mret v
  | None => raise (KeyError k)
  end.

(** Body of [for r in new_node.relationships]. *)
Definition relationship_body (new_node : loc)
  (vars : gmap string string * option string) (r : NodeRelationship)
  : M (gmap string string * option string) :=
  let '(cache, src) := vars in
  if String.eqb (str r) "NodeRelationship.SOURCE" then
    n ← deref new_node;
    match relationships_get (relationships n) r with
    | None => raise (KeyError (str r))
    | Some info =>
        let key := rel_node_id info in
        let src := Some key in
        match cache !! key with
        | Some _ => mret (cache, src)
        | None =>
            body ← get_text key;
            let cache := <[key := body]> cache in
            page ← cache_get cache key;
            let cache := <[key := html2text W page]> cache in
            mret (cache, src)
        end
    end
  else mret (cache, src).

(** Body of [for node in nodes]. *)
Definition enrich_node (node_total : nat) (vars : Locals) (node : loc)
  : M Locals :=
  n ← deref node;
  print (node_id n) (node_current_index vars) node_total ;;
  new_node ← deepcopy node;
  nn ← deref new_node;
  cs ← for_each (relationship_body new_node) (map fst (relationships nn))
         (web_page_content vars, source_url vars);
  let '(cache, src) := cs in
  match src with
  | None => raise (UnboundLocalError "source_url")
  | Some url =>
      whole_document ← cache_get cache url;
      nn ← deref new_node;
      let prompt := prompt_template whole_document (text nn) in
      answer ← complete_text prompt;
      nn ← deref new_node;
      store new_node (set_context nn answer) ;;
      mret {| web_page_content := cache;
              source_url := src;
              node_current_index := S (node_current_index vars);
              nodes_new := nodes_new vars ++ [new_node] |}
  end.

Definition initial_locals : Locals :=
  {| web_page_content := ∅;
     source_url := None;
     node_current_index := 1;
     nodes_new := [] |}.

(** [LlamaIndexContextualEnrichment.__call__] *)
Definition __call__ (nodes : list loc) : M (list loc) :=
  vars ← for_each (enrich_node (length nodes)) nodes initial_locals;
  mret (nodes_new vars).

End WithWorld.

(** *** Observations on a run *)

(** The document a chunk points back to: the node id under its SOURCE
    relationship, if it has one. *)
Definition source_of (n : TextNode) : option string :=
  rel_node_id <$> relationships_get (relationships n) SOURCE.

Definition is_get (url : string) (e : Event) : bool :=
  match e with
  | EvGet u _ => bool_decide (u = url)
  | _ => false
  end.

(** How often [requests.get] was called on [url]. *)
Definition fetch_count (url : string) (evs : list Event) : nat :=
  length (List.filter (is_get url) evs).

(** The answered generation calls, as (prompt, answer), in order. *)
Fixpoint completions (evs : list Event) : list (string * string) :=
  match evs with
  | [] => []
  | EvComplete p (Some a) :: evs' => (p, a) :: completions evs'
  | _ :: evs' => completions evs'
  end.

(** Every logged answer is the answer the world gave at that point. *)
Fixpoint faithful (W : World) (tr evs : list Event) : Prop :=
  match evs with
  | [] => True
  | e :: evs' =>
      match e with
      | EvGet u r => r = requests_get W tr u
      | EvComplete p r => r = llm_complete W tr p
      | EvPrint _ _ _ => True
      end ∧ faithful W (tr ++ [e]) evs'
  end.

(** *** One iteration, in one piece

    The three functions below say what [enrich_node] amounts to once its
    binds are run; [enrich_node_spec] proves that they agree with it. *)

Section Outcome.

Variable W : World.

Definition fetch_outcome (cache : gmap string string) (url : string)
  (σ : NodeStore) : (PyExn + (gmap string string * option string)) * NodeStore :=
  match cache !! url with
  | Some _ => (inr (cache, Some url), σ)
  | None =>
      match requests_get W (trace σ) url with
      | Some body =>
          (inr (<[url := html2text W body]> cache, Some url),
           log (EvGet url (Some body)) σ)
      | None => (inl (RequestException url), log (EvGet url None) σ)
      end
  end.

Definition finish (n : TextNode) (new : loc) (vars : Locals)
  (cache : gmap string string) (url : string) (σ : NodeStore)
  : (PyExn + Locals) * NodeStore :=
  match cache !! url with
  | None => (inl (KeyError url), σ)
  | Some doc =>
      let p := prompt_template doc (text n) in
      match llm_complete W (trace σ) p with
      | Some a =>
          (inr {| web_page_content := cache;
                  source_url := Some url;
                  node_current_index := S (node_current_index vars);
                  nodes_new := nodes_new vars ++ [new] |},
           {| heap := <[new := set_context n a]> (heap σ);
              trace := trace σ ++ [EvComplete p (Some a)] |})
      | None => (inl (GenerationError p), log (EvComplete p None) σ)
      end
  end.

Definition enrich_node_outcome (total : nat) (vars : Locals) (n : TextNode)
  (σ : NodeStore) : (PyExn + Locals) * NodeStore :=
  let σ1 := {| heap := heap σ ++ [n];
               trace := trace σ ++
                 [EvPrint (node_id n) (node_current_index vars) total] |} in
  let new := length (heap σ) in
  match source_of n with
  | Some url =>
      match fetch_outcome (web_page_content vars) url σ1 with
      | (inr (cache, _), σ2) => finish n new vars cache url σ2
      | (inl e, σ2) => (inl e, σ2)
      end
  | None =>
      match source_url vars with
      | None => (inl (UnboundLocalError "source_url"), σ1)
      | Some url => finish n new vars (web_page_content vars) url σ1
      end
  end.

(** What a stretch of iterations adds to the trace and does to the cache,
    whatever its outcome. *)
Definition step_trace_ok (vars : Locals) (σ : NodeStore)
  (r : (PyExn + Locals) * NodeStore) : Prop :=
  ∃ evs,
    trace r.2 = trace σ ++ evs ∧
    faithful W (trace σ) evs ∧
    (∀ url, (fetch_count url evs ≤
             match web_page_content vars !! url with Some _ => 0 | None => 1 end)%nat) ∧
    match r.1 with
    | inr vars' =>
        web_page_content vars ⊆ web_page_content vars' ∧
        (∀ url, (0 < fetch_count url evs)%nat →
                is_Some (web_page_content vars' !! url)) ∧
        (∀ url doc, web_page_content vars' !! url = Some doc →
           web_page_content vars !! url = Some doc ∨
           ∃ body, EvGet url (Some body) ∈ evs ∧ doc = html2text W body)
    | inl _ => True
    end.

(** What a stretch of iterations that returns has done, chunk by chunk:
    [(n, doc, a)] is the input chunk, the document text put into its
    prompt, and the answer. *)
Definition enriched (σ : NodeStore) (nodes : list loc) (vars vars' : Locals)
  (σ' : NodeStore) (infos : list (TextNode * string * string)) : Prop :=
  Forall2 (λ l i, heap σ !! l = Some i.1.1) nodes infos ∧
  heap σ' = heap σ ++ map (λ i, set_context i.1.1 i.2) infos ∧
  nodes_new vars' = nodes_new vars ++ seq (length (heap σ)) (length nodes) ∧
  (∃ evs, trace σ' = trace σ ++ evs ∧
     completions evs =
       map (λ i, (prompt_template i.1.2 (text i.1.1), i.2)) infos) ∧
  Forall (λ i, ∃ url, web_page_content vars' !! url = Some i.1.2 ∧
                 ∀ u, source_of i.1.1 = Some u → u = url) infos.

End Outcome.

(** *** The properties as the specification words them *)

(** [str.isspace] on one character, ASCII only. *)
Definition is_whitespace (c : Ascii.ascii) : bool :=
  let k := Ascii.nat_of_ascii c in
  (k =? 32)%nat || ((9 <=? k)%nat && (k <=? 13)%nat)
  || ((28 <=? k)%nat && (k <=? 31)%nat).

Fixpoint lstrip (s : string) : string :=
  match s with
  | EmptyString => EmptyString
  | String c s' => if is_whitespace c then lstrip s' else s
  end.

(** [str.strip()] *)
Definition strip (s : string) : string :=
  String.rev (lstrip (String.rev (lstrip s))).

(** "|C| output chunks in the same order, each with a non-empty context
    metadata value, and the original chunk text unchanged", for every
    input. *)
Definition claimed_enrichment (W : World) (σ : NodeStore) (nodes : list loc)
  : Prop :=
  ∃ out σ',
    __call__ W nodes σ = (inr out, σ') ∧
    length out = length nodes ∧
    Forall2 (λ l o, ∃ n n' c,
               heap σ !! l = Some n ∧ heap σ' !! l = Some n ∧
               heap σ' !! o = Some n' ∧ text n' = text n ∧
               metadata n' !! "context" = Some c ∧ c ≠ "") nodes out.

(** "stores the trimmed response under metadata key context" *)
Definition claimed_trimmed_context (W : World) (σ : NodeStore)
  (nodes : list loc) : Prop :=
  ∀ out σ', __call__ W nodes σ = (inr out, σ') →
    Forall (λ o, ∃ n' c, heap σ' !! o = Some n' ∧
                   metadata n' !! "context" = Some c ∧ strip c = c) out.

(** "this must abort enrichment of the affected chunk, not the whole
    batch": every chunk whose own document can be fetched is enriched. *)
Definition claimed_per_chunk_failure (W : World) (σ : NodeStore)
  (nodes : list loc) : Prop :=
  ∀ l n url,
    l ∈ nodes → heap σ !! l = Some n → source_of n = Some url →
    (∀ tr, is_Some (requests_get W tr url)) →
    ∃ o n', heap (__call__ W nodes σ).2 !! o = Some n' ∧
            node_id n' = node_id n ∧ is_Some (metadata n' !! "context").

(** *** Concrete runs *)

Definition letter_2022 : string :=
  "https://www.aboutamazon.com/news/company-news/amazon-ceo-andy-jassy-2022-letter-to-shareholders".
Definition letter_2023 : string :=
  "https://www.aboutamazon.com/news/company-news/ceo-andy-jassys-2023-letter-to-shareholders".

Definition chunk (id body : string)
  (rels : list (NodeRelationship * RelatedNodeInfo)) : TextNode :=
  {| node_id := id; text := body; metadata := ∅; relationships := rels |}.

Definition chunk_a : TextNode :=
  chunk "a" "Dear shareholders" [(SOURCE, {| rel_node_id := letter_2022 |})].
Definition chunk_b : TextNode :=
  chunk "b" "We invented AWS"
    [(SOURCE, {| rel_node_id := letter_2022 |});
     (PREVIOUS, {| rel_node_id := "a" |})].
Definition chunk_c : TextNode :=
  chunk "c" "Generative AI" [(SOURCE, {| rel_node_id := letter_2023 |})].
(** A chunk that has lost its SOURCE relationship. *)
Definition chunk_orphan : TextNode :=
  chunk "d" "Primitives" [(PREVIOUS, {| rel_node_id := "c" |})].

Definition store_of (h : list TextNode) : NodeStore :=
  {| heap := h; trace := [] |}.

(** A world whose answers do not depend on the history. *)
Definition world_of (get llm : string → option string) : World :=
  {| requests_get := λ _ u, get u;
     html2text := λ page, "text:" +:+ page;
     llm_complete := λ _ p, llm p |}.

Definition page_of (url : string) : option string := Some ("<html>" +:+ url).

(** Everything answers; the model's answer is the padded word " ok ". *)
Definition world_ok : World := world_of page_of (λ _, Some " ok ").
(** The model answers with the empty string. *)
Definition world_silent : World := world_of page_of (λ _, Some "").
(** The 2022 letter cannot be fetched. *)
Definition world_2022_down : World :=
  world_of (λ u, if String.eqb u letter_2022 then None else page_of u)
           (λ _, Some "ok").
(** The model repeats its prompt, which shows the document it was given. *)
Definition world_echo : World := world_of page_of Some.


(** *** More observations on a run *)

(** The progress lines, as (node id, current, total), in order. *)
Fixpoint progress_lines (evs : list Event) : list (string * nat * nat) :=
  match evs with
  | [] => []
  | EvPrint id current total :: evs' => (id, current, total) :: progress_lines evs'
  | _ :: evs' => progress_lines evs'
  end.

Definition is_complete (e : Event) : bool :=
  match e with
  | EvComplete _ _ => true
  | _ => false
  end.

(** How often the generation model was called, answered or not. *)
Definition generation_calls (evs : list Event) : nat :=
  length (List.filter is_complete evs).

(** [url] is the source document of one of the chunks. *)
Definition referenced (σ : NodeStore) (nodes : list loc) (url : string) : Prop :=
  ∃ l n, l ∈ nodes ∧ heap σ !! l = Some n ∧ source_of n = Some url.

End Enricher.

(** ** The hybrid retriever *)

Module Retriever.

(** A scored candidate.  Scores are floats in the notebook; they are only
    compared, and every finite float is a rational, so they are kept as
    rationals here.  [retrieval_score] is the slot the reranker fills
    when it is asked to keep the score a candidate came with. *)
Record NodeWithScore : Type := {
  node_id : string;
  text : string;
  score : Q;
  retrieval_score : option Q
}.

Inductive Event : Type :=
| EvVector (query : string) (result : option (list NodeWithScore))
| EvBM25 (query : string) (result : option (list NodeWithScore))
| EvRerank (nodes : list NodeWithScore) (query : string)
    (result : option (list NodeWithScore)).

(** The three collaborators handed to the constructor.  As for the
    enricher, an answer may depend on the calls made so far, and [None]
    stands for a raised exception. *)
Record World : Type := {
  vector_retrieve : list Event → string → option (list NodeWithScore);
  bm25_retrieve : list Event → string → option (list NodeWithScore);
  postprocess_nodes :
    list Event → list NodeWithScore → string → option (list NodeWithScore)
}.

(** Python lists are objects: [extend] changes the list it is called on,
    for everybody who holds it.  The heap maps a reference to the contents
    of a list object. *)
Abbreviation ListStore := (Store (list NodeWithScore) Event).
Abbreviation M := (Eff ListStore).

(** [a.extend(b)] *)
Definition extend (a b : loc) : M unit :=
  xs ← deref a;
  ys ← deref b;
  store a (xs ++ ys).

Section WithWorld.

Variable W : World.

(** [self._vector_retriever.retrieve(query_bundle)]: [BaseRetriever.retrieve]
    builds the list it returns, so the result is a new list object. *)
Definition vector_retriever_retrieve (query : string) : M loc :=
  ns ← call (λ tr, vector_retrieve W tr query) (EvVector query)
          (RetrievalError "vector");
  alloc ns.

(** [self.bm25_retriever.retrieve(query_bundle)] *)
Definition bm25_retriever_retrieve (query : string) : M loc :=
  ns ← call (λ tr, bm25_retrieve W tr query) (EvBM25 query)
          (RetrievalError "bm25");
  alloc ns.

(** [self.reranker.postprocess_nodes(nodes, query_bundle)]; the reranker
    returns a list of its own. *)
Definition reranker_postprocess_nodes (nodes : loc) (query : string) : M loc :=
  ns ← deref nodes;
  out ← call (λ tr, postprocess_nodes W tr ns query) (EvRerank ns query)
           (RetrievalError "reranker");
  alloc out.

(** [LlamaIndexEmbeddingBM25RerankerRetriever._retrieve] *)
Definition _retrieve (query_bundle : string) : M loc :=
  vector_nodes ← vector_retriever_retrieve query_bundle;
  bm25_nodes ← bm25_retriever_retrieve query_bundle;
  extend vector_nodes bm25_nodes;;
  retrieved_nodes ← reranker_postprocess_nodes vector_nodes query_bundle;
  mret retrieved_nodes.

End WithWorld.

(** What a call hands back to its caller: the contents of the returned
    list, or the exception. *)
Definition returned (r : (PyExn + loc) * ListStore)
  : PyExn + option (list NodeWithScore) :=
  match r.1 with
  | inr l => inr (heap r.2 !! l)
  | inl e => inl e
  end.

(** *** The reranker of the notebook

    [ColbertRerank] belongs to llama_index, not to this repository; what
    the notebook fixes is its configuration.  Its behaviour is taken from
    the specification. *)

Definition LLAMA_INDEX_RETRIEVAL_TOP_K : nat := 5.

Section Colbert.

(** The relevance model: query and chunk text to a score. *)
Variable model : string → string → Q.

(** Modelled from the spec: the reranker's scoring step, "scores (query,
    chunk) pairs", with "keep_original_score: whether to retain the
    pre-rerank score alongside the new one". *)
Definition rescore (keep_retrieval_score : bool) (query : string)
  (n : NodeWithScore) : NodeWithScore :=
  {| node_id := node_id n;
     text := text n;
     score := model query (text n);
     retrieval_score :=
       if keep_retrieval_score then Some (score n) else retrieval_score n |}.

(** Modelled from the spec: the reranker's ordering step, a stable sort
    ("ties broken by original candidate order (stable sort)"), here by
    insertion in front of the first element that does not score higher. *)
Fixpoint insert_by_score (x : NodeWithScore) (l : list NodeWithScore)
  : list NodeWithScore :=
  match l with
  | [] => [x]
  | y :: l' =>
      if Qle_bool (score y) (score x) then x :: y :: l'
      else y :: insert_by_score x l'
  end.

(** Modelled from the spec: the reranker's ordering, highest score first,
    among equal scores the earlier candidate first. *)
Definition sort_by_score_desc (l : list NodeWithScore) : list NodeWithScore :=
  foldr insert_by_score [] l.

(** Modelled from the spec: the reranker capability ([ColbertRerank] of
    llama_index, a library outside this repository).  It scores every
    (query, candidate) pair, reorders the candidates by the new score,
    highest first and stably ("ties broken by original candidate order
    (stable sort)"), truncates to [top_n] ("reorders and truncates to
    top-N"), and with [keep_retrieval_score] retains the score a candidate
    came with next to the new one. *)
Definition ColbertRerank (top_n : nat) (keep_retrieval_score : bool)
  (nodes : list NodeWithScore) (query : string) : list NodeWithScore :=
  take top_n
    (sort_by_score_desc (map (rescore keep_retrieval_score query) nodes)).

(** [colbert_reranker = ColbertRerank(top_n=LLAMA_INDEX_RETRIEVAL_TOP_K,
    ..., keep_retrieval_score=True)] *)
Definition colbert_reranker : list NodeWithScore → string → list NodeWithScore :=
  ColbertRerank LLAMA_INDEX_RETRIEVAL_TOP_K true.

(** The retriever of cell 3d: the two sub-retrievers with this reranker. *)
Definition with_colbert_reranker (W : World) : World :=
  {| vector_retrieve := vector_retrieve W;
     bm25_retrieve := bm25_retrieve W;
     postprocess_nodes :=
       λ _ nodes query, Some (colbert_reranker nodes query) |}.

End Colbert.

(** *** Observations and concrete runs *)

(** The collaborators are unchanged between calls: what they answer does
    not depend on the calls made before. *)
Definition history_independent (W : World) : Prop :=
  ∀ tr tr' query,
    vector_retrieve W tr query = vector_retrieve W tr' query ∧
    bm25_retrieve W tr query = bm25_retrieve W tr' query ∧
    ∀ nodes, postprocess_nodes W tr nodes query =
             postprocess_nodes W tr' nodes query.

Definition same_score (s : Q) (n : NodeWithScore) : bool :=
  Qeq_bool (score n) s.

(** [a] may stand before [b] in a ranking. *)
Definition score_ge (a b : NodeWithScore) : Prop := (score b <= score a)%Q.

Definition candidate (id : string) (s : Q) : NodeWithScore :=
  {| node_id := id; text := id; score := s; retrieval_score := None |}.

(** Both sub-retrievers find chunk "b"; the relevance model rates "a"
    and "b" the same. *)
Definition example_model (query chunk_text : string) : Q :=
  if String.eqb chunk_text "c" then 3 # 1
  else if String.eqb chunk_text "a" then 1 # 2
  else if String.eqb chunk_text "b" then 2 # 4
  else 0 # 1.

Definition vector_candidates : list NodeWithScore :=
  [candidate "a" (9 # 10); candidate "b" (8 # 10); candidate "d" (7 # 10)].
Definition bm25_candidates : list NodeWithScore :=
  [candidate "b" (5 # 1); candidate "c" (4 # 1); candidate "a" (3 # 1);
   candidate "e" (2 # 1)].

Definition example_retrievers : World :=
  {| vector_retrieve := λ _ _, Some vector_candidates;
     bm25_retrieve := λ _ _, Some bm25_candidates;
     postprocess_nodes := λ _ _ _, None |}.

Definition example_world : World :=
  with_colbert_reranker example_model example_retrievers.

Definition empty_store : ListStore := {| heap := []; trace := [] |}.

End Retriever.

(** ** Aggregation of the evaluation results *)

Module Evaluation.

Definition LLAMA_INDEX_RETRIEVAL_EVALUATION_METRICS : list string :=
  ["hit_rate"; "mrr"; "recall"].

(** A [RetrievalEvalResult], as far as the code reads it. *)
Record RetrievalEvalResult : Type := {
  metric_vals_dict : gmap string Q
}.

(** *** The part of pandas the function uses

    pandas is a library; the three operations below follow its documented
    behaviour.  Numbers are floats in pandas; they are rationals here, so
    the mean is the exact one. *)

Inductive Cell : Type :=
| CStr (s : string)
| CNum (x : Q)
| CNaN.

(** A frame: its columns in order, every column with one cell per row. *)
Record DataFrame : Type := { columns : list (string * list Cell) }.

(** [pd.DataFrame(records)] for a list of dicts: one row per dict, and a
    column for every key that occurs in some dict; a dict without the key
    has NaN in that column.  Only column access is used on it, so the
    frame is kept as its rows. *)
Definition RecordsFrame : Type := list (gmap string Q).

(** [full_df[k]] *)
Definition getitem (full_df : RecordsFrame) (k : string) : PyExn + list Cell :=
  if existsb (λ d, bool_decide (is_Some (d !! k))) full_df
  then inr (map (λ d, match d !! k with Some x => CNum x | None => CNaN end)
              full_df)
  else inl (KeyError k).

Definition numbers (col : list Cell) : list Q :=
  omap (λ c, match c with CNum x => Some x | _ => None end) col.

Definition Qsum (xs : list Q) : Q := foldr Qplus 0%Q xs.

(** [Series.mean()]: NaN cells are skipped; NaN if nothing is left. *)
Definition mean (col : list Cell) : Cell :=
  match numbers col with
  | [] => CNaN
  | xs => CNum (Qsum xs / inject_Z (Z.of_nat (length xs)))%Q
  end.

(** The dict comprehension [{k: [full_df[k].mean()] for k in ...}]. *)
Fixpoint mean_columns (full_df : RecordsFrame) (ks : list string)
  : PyExn + list (string * list Cell) :=
  match ks with
  | [] => inr []
  | k :: ks' =>
      match getitem full_df k with
      | inl e => inl e
      | inr col =>
          match mean_columns full_df ks' with
          | inl e => inl e
          | inr cols => inr ((k, [mean col]) :: cols)
          end
      end
  end.

(** [llama_index_evaluation_print_results] *)
Definition llama_index_evaluation_print_results (name : string)
  (eval_results : list RetrievalEvalResult) (metrics : list string)
  : PyExn + DataFrame :=
  let metric_dicts := map metric_vals_dict eval_results in
  let full_df : RecordsFrame := metric_dicts in
  match mean_columns full_df LLAMA_INDEX_RETRIEVAL_EVALUATION_METRICS with
  | inl e => inl e
  | inr cols => inr {| columns := ("retrievers", [CStr name]) :: cols |}
  end.

(** Column access and row count on a result frame. *)
Definition column (df : DataFrame) (k : string) : option (list Cell) :=
  snd <$> List.find (λ c, String.eqb (fst c) k) (columns df).


(** The values a metric takes over the evaluation results. *)
Definition metric_values (k : string) (eval_results : list RetrievalEvalResult)
  : list Q :=
  omap (λ r, metric_vals_dict r !! k) eval_results.

Definition arithmetic_mean (xs : list Q) : Q :=
  (Qsum xs / inject_Z (Z.of_nat (length xs)))%Q.

(** *** Concrete results *)

Definition eval_result (hit_rate mrr recall : Q) : RetrievalEvalResult :=
  {| metric_vals_dict :=
       {[ "hit_rate" := hit_rate; "mrr" := mrr; "recall" := recall ]} |}.

Definition example_results : list RetrievalEvalResult :=
  [eval_result 1 (1 # 2) 1; eval_result 0 0 0; eval_result 1 1 1].


(** *** The table of the last cell *)

(** Every configured metric has a value in at least one result. *)
Definition covers (eval_results : list RetrievalEvalResult) : Prop :=
  ∀ k, k ∈ LLAMA_INDEX_RETRIEVAL_EVALUATION_METRICS →
       ∃ r, r ∈ eval_results ∧ is_Some (metric_vals_dict r !! k).

(** Number of rows of a frame. *)
Definition nrows (df : DataFrame) : nat :=
  match columns df with
  | [] => 0
  | c :: _ => length c.2
  end.

(** Names in the order of their first occurrence. *)
Fixpoint first_occurrences (ks : list string) : list string :=
  match ks with
  | [] => []
  | k :: ks' =>
      k :: List.filter (λ k', negb (String.eqb k k')) (first_occurrences ks')
  end.

(** [pd.concat([first, *rest], ignore_index=True, axis=0)]: the rows of
    the frames one after the other, under the union of their columns in
    the order of first occurrence; a frame without a column has NaN in
    it.  (pandas refuses an empty list, so there is a first frame.) *)
Definition concat (first : DataFrame) (rest : list DataFrame) : DataFrame :=
  let dfs := first :: rest in
  let names :=
    first_occurrences (List.concat (map (λ df, map fst (columns df)) dfs)) in
  {| columns :=
       map (λ k, (k, List.concat
                       (map (λ df, match column df k with
                                   | Some cells => cells
                                   | None => replicate (nrows df) CNaN
                                   end) dfs)))
           names |}.

(** The last cell of the notebook: the four evaluations, one row each. *)
Definition results_table
  (results results_enriched results_bm25 results_hybrid
     : list RetrievalEvalResult) : PyExn + DataFrame :=
  let metrics := LLAMA_INDEX_RETRIEVAL_EVALUATION_METRICS in
  match llama_index_evaluation_print_results
          "retriever-original" results metrics with
  | inl e => inl e
  | inr df1 =>
  match llama_index_evaluation_print_results
          "retriever-enriched" results_enriched metrics with
  | inl e => inl e
  | inr df2 =>
  match llama_index_evaluation_print_results
          "retriever-enriched-bm25" results_bm25 metrics with
  | inl e => inl e
  | inr df3 =>
  match llama_index_evaluation_print_results
          "retriever-enriched-hybrid" results_hybrid metrics with
  | inl e => inl e
  | inr df4 => inr (concat df1 [df2; df3; df4])
  end end end end.

(** A result without a recall value, next to a complete one. *)
Definition partial_results : list RetrievalEvalResult :=
  [eval_result 1 (1 # 2) 1;
   {| metric_vals_dict := {[ "hit_rate" := 0%Q; "mrr" := 0%Q ]} |};
   eval_result 1 1 0].

(** What the function returns for [partial_results]. *)
Definition partial_frame : DataFrame :=
  {| columns := [("retrievers", [CStr "retriever-enriched"]);
                 ("hit_rate", [CNum (2 # 3)]);
                 ("mrr", [CNum (3 # 6)]);
                 ("recall", [CNum (1 # 2)])] |}.

End Evaluation.

(** * Proofs *)

(** ** The monad *)

Lemma bind_unfold {S A B} (m : Eff S A) (k : A → Eff S B) σ :
  (m ≫= k) σ = match m σ with
                | (inr a, σ') => k a σ'
                | (inl e, σ') => (inl e, σ')
                end.
Proof. reflexivity. Qed.

Ltac eff_unfold :=
  unfold mbind, Eff_bind, eff_bind, mret, Eff_ret, eff_ret, raise;
  cbn beta iota zeta.

Lemma for_each_app {S A X} (body : A → X → Eff S A) xs ys acc σ :
  for_each body (xs ++ ys) acc σ =
    match for_each body xs acc σ with
    | (inr acc', σ') => for_each body ys acc' σ'
    | (inl e, σ') => (inl e, σ')
    end.
Proof.
  revert acc σ. induction xs as [|x xs IH]; intros acc σ; [done|].
  cbn [app for_each]. rewrite !bind_unfold.
  destruct (body acc x σ) as [[e|acc1] σ1]; [done|]. apply IH.
Qed.

(** ** The contextual enricher *)

Module EnricherFacts.
Import Enricher.

Section Facts.

Variable W : World.

(** The string test picks out the SOURCE key and no other. *)
Lemma str_SOURCE r :
  String.eqb (str r) "NodeRelationship.SOURCE" = bool_decide (r = SOURCE).
Proof. by destruct r. Qed.

Lemma relationships_get_key d r :
  r ∈ map fst d → is_Some (relationships_get d r).
Proof.
  induction d as [|[k v] d IH]; simpl.
  - by intros ?%elem_of_nil.
  - intros [Hr|?]%elem_of_cons; case_decide; simpl in *; eauto; congruence.
Qed.

Lemma relationships_get_None d r :
  r ∉ map fst d → relationships_get d r = None.
Proof.
  induction d as [|[k v] d IH]; simpl; [done|].
  intros Hn. case_decide as Hk.
  - subst. destruct Hn. by left.
  - apply IH. intros ?. apply Hn. by right.
Qed.

(** The loop over the relationships: nothing happens unless SOURCE is among
    the keys; if it is, the first visit fetches the document unless it is
    cached, and later visits find it cached. *)
Lemma relationship_loop_spec new n ks cache src σ :
  heap σ !! new = Some n →
  for_each (relationship_body W new) ks (cache, src) σ =
    if decide (SOURCE ∈ ks) then
      match source_of n with
      | Some url => fetch_outcome W cache url σ
      | None => (inl (KeyError (str SOURCE)), σ)
      end
    else (inr (cache, src), σ).
Proof.
  intros Hn. revert cache src σ Hn.
  induction ks as [|k ks IH]; intros cache src σ Hn.
  - cbn [for_each]. case_decide as H; [by apply elem_of_nil in H|done].
  - cbn [for_each]. rewrite bind_unfold.
    unfold relationship_body at 1. rewrite str_SOURCE.
    case_bool_decide as Hk.
    + subst k. rewrite decide_True by left.
      rewrite bind_unfold. unfold deref at 1. rewrite Hn.
      unfold source_of.
      destruct (relationships_get (relationships n) SOURCE) as [info|] eqn:Hinfo; simpl; [|done].
      unfold fetch_outcome.
      destruct (cache !! rel_node_id info) as [doc|] eqn:Hdoc.
      * eff_unfold.
        rewrite IH by done.
        case_decide; [|done].
        unfold source_of. rewrite Hinfo. simpl. unfold fetch_outcome. by rewrite Hdoc.
      * rewrite bind_unfold. unfold get_text, call at 1.
        destruct (requests_get W (trace σ) (rel_node_id info)) as [body|] eqn:Hget; [|done].
        cbn iota beta zeta. rewrite bind_unfold. unfold cache_get. rewrite lookup_insert_eq.
        eff_unfold.
        rewrite insert_insert_eq.
        rewrite IH by done.
        case_decide; [|done].
        unfold source_of. rewrite Hinfo. simpl. unfold fetch_outcome.
        by rewrite lookup_insert_eq.
    + eff_unfold.
      rewrite IH by done.
      destruct (decide (SOURCE ∈ ks)) as [Hin|Hin].
      * rewrite decide_True; [done|]. by right.
      * rewrite decide_False; [done|]. intros [?|?]%elem_of_cons; congruence.
Qed.

(** One iteration, on a reference that points to nothing. *)
Lemma enrich_node_invalid total vars node σ :
  heap σ !! node = None →
  enrich_node W total vars node σ = (inl (InvalidReference node), σ).
Proof.
  intros Hn. unfold enrich_node. rewrite bind_unfold. unfold deref at 1.
  by rewrite Hn.
Qed.

(** One iteration, on a reference to [n]. *)
Lemma enrich_node_spec total vars node n σ :
  heap σ !! node = Some n →
  enrich_node W total vars node σ = enrich_node_outcome W total vars n σ.
Proof.
  intros Hn. unfold enrich_node, enrich_node_outcome.
  rewrite bind_unfold. unfold deref at 1. rewrite Hn.
  rewrite bind_unfold. unfold print, emit at 1. cbn iota beta. unfold log at 1.
  rewrite bind_unfold. unfold deepcopy. rewrite bind_unfold.
  unfold deref at 1. cbn [heap trace log]. rewrite Hn.
  unfold alloc at 1. cbn [heap trace log].
  rewrite bind_unfold. unfold deref at 1. cbn [heap trace log].
  rewrite lookup_app_r by done. rewrite Nat.sub_diag. cbn [lookup list_lookup].
  rewrite bind_unfold.
  set (σ1 := {| heap := heap σ ++ [n]; trace := _ |}).
  assert (heap σ1 !! length (heap σ) = Some n) as Hnew.
  { subst σ1. cbn [heap]. rewrite lookup_app_r by done. by rewrite Nat.sub_diag. }
  rewrite (relationship_loop_spec _ n) by done.
  case_decide as Hsrc.
  - destruct (relationships_get_key _ _ Hsrc) as [info Hinfo].
    unfold source_of. rewrite Hinfo. cbn [fmap option_fmap option_map].
    destruct (fetch_outcome _ _ _) as [[e|[cache src]] σ2] eqn:Hf; [done|].
    assert (src = Some (rel_node_id info) ∧ heap σ2 = heap σ1) as [-> Hh].
    { unfold fetch_outcome in Hf. repeat case_match; simplify_eq; done. }
    assert (heap σ2 !! length (heap σ) = Some n) as Hnew2 by (by rewrite Hh).
    unfold finish, cache_get.
    destruct (cache !! rel_node_id info) as [doc|]; [|done].
    eff_unfold. unfold deref at 1. rewrite Hnew2.
    unfold complete_text, call at 1.
    destruct (llm_complete W (trace σ2) _) as [a|]; [|done].
    cbn iota beta zeta. unfold deref at 1, log. cbn [heap trace]. rewrite Hnew2.
    done.
  - unfold source_of. rewrite relationships_get_None by done.
    cbn [fmap option_fmap option_map].
    destruct (source_url vars) as [url|]; [|done].
    unfold finish, cache_get.
    destruct (web_page_content vars !! url) as [doc|]; [|done].
    eff_unfold. unfold deref at 1. rewrite Hnew.
    unfold complete_text, call at 1.
    destruct (llm_complete W (trace σ1) _) as [a|]; [|done].
    cbn iota beta zeta. unfold deref at 1, log. cbn [heap trace]. rewrite Hnew.
    done.
Qed.

(** An iteration that returns: one new object, the copy with its context;
    one progress line, at most one fetch, one generation call. *)
Lemma enrich_node_outcome_ok total vars n σ vars' σ' :
  enrich_node_outcome W total vars n σ = (inr vars', σ') →
  ∃ url doc a evget,
    let pre := trace σ ++ EvPrint (node_id n) (node_current_index vars) total :: evget in
    heap σ' = heap σ ++ [set_context n a] ∧
    trace σ' = pre ++ [EvComplete (prompt_template doc (text n)) (Some a)] ∧
    llm_complete W pre (prompt_template doc (text n)) = Some a ∧
    source_url vars' = Some url ∧
    node_current_index vars' = S (node_current_index vars) ∧
    nodes_new vars' = nodes_new vars ++ [length (heap σ)] ∧
    web_page_content vars' !! url = Some doc ∧
    (∀ u, source_of n = Some u → u = url) ∧
    ((evget = [] ∧ web_page_content vars' = web_page_content vars) ∨
     (∃ body, evget = [EvGet url (Some body)] ∧
        web_page_content vars !! url = None ∧
        requests_get W (trace σ ++ [EvPrint (node_id n) (node_current_index vars) total]) url = Some body ∧
        doc = html2text W body ∧
        web_page_content vars' = <[url := html2text W body]> (web_page_content vars))).
Proof.
  unfold enrich_node_outcome. intros H.
  assert (∀ cache url σ2 evget,
    trace σ2 = trace σ ++ EvPrint (node_id n) (node_current_index vars) total :: evget →
    heap σ2 = heap σ ++ [n] →
    finish W n (length (heap σ)) vars cache url σ2 = (inr vars', σ') →
    ∃ doc a,
      heap σ' = heap σ ++ [set_context n a] ∧
      trace σ' = trace σ2 ++ [EvComplete (prompt_template doc (text n)) (Some a)] ∧
      llm_complete W (trace σ2) (prompt_template doc (text n)) = Some a ∧
      source_url vars' = Some url ∧
      node_current_index vars' = S (node_current_index vars) ∧
      nodes_new vars' = nodes_new vars ++ [length (heap σ)] ∧
      web_page_content vars' = cache ∧ cache !! url = Some doc) as Hfin.
  { intros cache url σ2 evget Htr Hh. unfold finish.
    destruct (cache !! url) as [doc|]; [|done].
    destruct (llm_complete W (trace σ2) _) as [a|] eqn:Hllm; [|done].
    intros [= <- <-]. exists doc, a. cbn.
    rewrite Hh, insert_app_r_alt, Nat.sub_diag by done. done. }
  destruct (source_of n) as [url|] eqn:Hsrc.
  - unfold fetch_outcome in H.
    destruct (web_page_content vars !! url) as [doc0|] eqn:Hc.
    + eapply (Hfin _ _ _ []) in H as (doc & a & ? & Ht & ? & ? & ? & ? & Hcache & ?); [|done..].
      exists url, doc, a, []. cbn zeta. rewrite Ht. cbn [trace] in *.
      split_and!; try done; [congruence|by intros ? [= ->]|by left].
    + destruct (requests_get W _ url) as [body|] eqn:Hget; [|done].
      eapply (Hfin _ _ _ [EvGet url (Some body)]) in H
        as (doc & a & ? & Ht & Hllm & ? & ? & ? & Hcache & Hdoc);
        [|by cbn; rewrite <- (assoc_L (++))|done].
      rewrite lookup_insert_eq in Hdoc. injection Hdoc as <-.
      cbn [trace log heap] in *. rewrite <- (assoc_L (++)) in Ht, Hllm.
      exists url, (html2text W body), a, [EvGet url (Some body)]. cbn zeta.
      split_and!; try done.
      * by rewrite Ht, <- !(assoc_L (++)).
      * by rewrite Hcache, lookup_insert_eq.
      * by intros ? [= ->].
      * right. exists body. by rewrite Hcache.
  - destruct (source_url vars) as [url|] eqn:Hu; [|done].
    eapply (Hfin _ _ _ []) in H as (doc & a & ? & Ht & ? & ? & ? & ? & Hcache & ?); [|done..].
    exists url, doc, a, []. cbn zeta. rewrite Ht. cbn [trace] in *.
    split_and!; try done; [by rewrite Hcache|by left].
Qed.

Lemma faithful_app tr evs1 evs2 :
  faithful W tr (evs1 ++ evs2) ↔ faithful W tr evs1 ∧ faithful W (tr ++ evs1) evs2.
Proof.
  revert tr. induction evs1 as [|e evs1 IH]; intros tr; cbn [faithful app].
  - rewrite (right_id_L [] (++)). tauto.
  - rewrite IH, <- (assoc_L (++)). cbn [app]. tauto.
Qed.

Lemma fetch_count_app url evs1 evs2 :
  fetch_count url (evs1 ++ evs2) = fetch_count url evs1 + fetch_count url evs2.
Proof. unfold fetch_count. by rewrite List.filter_app, length_app. Qed.

Lemma completions_app evs1 evs2 :
  completions (evs1 ++ evs2) = completions evs1 ++ completions evs2.
Proof.
  induction evs1 as [|[| |p [a|]] evs1 IH]; cbn [completions app]; by rewrite ?IH.
Qed.

Lemma fetch_count_single url u r :
  fetch_count url [EvGet u r] = if decide (u = url) then 1 else 0.
Proof. unfold fetch_count. cbn. case_bool_decide; by case_decide. Qed.

(** The trace and the cache over one iteration. *)
Lemma enrich_node_trace total vars node σ :
  step_trace_ok W vars σ (enrich_node W total vars node σ).
Proof.
  destruct (heap σ !! node) as [n|] eqn:Hn.
  2:{ rewrite enrich_node_invalid by done. exists []. cbn.
      rewrite (right_id_L [] (++)). split_and!; try done.
      intros url. unfold fetch_count. cbn. lia. }
  rewrite (enrich_node_spec _ _ _ n) by done.
  unfold enrich_node_outcome, fetch_outcome, finish, log.
  repeat case_match; simplify_eq; unfold step_trace_ok;
    cbn [fst snd heap trace web_page_content] in *;
    rewrite <- ?(assoc_L (++)) in *; cbn [app] in *;
    rewrite <- ?(assoc_L (++)); eexists; (split; [reflexivity|]).
  all: cbn [app faithful]; rewrite <- ?(assoc_L (++)); cbn [app].
  all: split_and!; try done.
  all: try (intros url'; rewrite ?fetch_count_single; unfold fetch_count; cbn;
            repeat case_bool_decide; repeat case_match; simplify_eq; cbn; lia).
  all: try (by apply insert_subseteq).
  all: try (intros url'; unfold fetch_count; cbn; repeat case_bool_decide; simplify_eq; cbn;
            try lia; intros _; rewrite ?lookup_insert_eq; eauto).
  all: try (by intros; left).
  all: intros url' doc' [[<- <-]|[_ ?]]%lookup_insert_Some; [right|by left].
  all: eexists; split; [|done]; set_solver.
Qed.

(** The trace and the cache over any number of iterations. *)
Lemma for_each_trace total nodes vars σ :
  step_trace_ok W vars σ (for_each (enrich_node W total) nodes vars σ).
Proof.
  revert vars σ. induction nodes as [|node nodes IH]; intros vars σ.
  - exists []. cbn [for_each]. eff_unfold. cbn.
    rewrite (right_id_L [] (++)). split_and!; try done; [..|by left].
    all: intros url; unfold fetch_count; cbn; lia.
  - cbn [for_each]. rewrite bind_unfold.
    pose proof (enrich_node_trace total vars node σ) as (evs1 & Ht1 & Hf1 & Hc1 & Hr1).
    destruct (enrich_node W total vars node σ) as [[e|vars1] σ1]; cbn [fst snd] in *.
    { exists evs1. done. }
    destruct Hr1 as (Hsub1 & Hin1 & Hprov1).
    destruct (IH vars1 σ1) as (evs2 & Ht2 & Hf2 & Hc2 & Hr2).
    exists (evs1 ++ evs2). split_and!.
    + by rewrite Ht2, Ht1, (assoc_L (++)).
    + apply faithful_app. by rewrite <- Ht1.
    + intros url. rewrite fetch_count_app.
      specialize (Hc1 url). specialize (Hc2 url). specialize (Hin1 url).
      destruct (web_page_content vars !! url) as [doc|] eqn:Hd.
      * eapply lookup_weaken in Hd; [|done]. rewrite Hd in Hc2. lia.
      * destruct (fetch_count url evs1) as [|c1] eqn:Hcount; [|].
        -- destruct (web_page_content vars1 !! url); lia.
        -- destruct Hin1 as [doc Hdoc]; [lia|]. rewrite Hdoc in Hc2. lia.
    + destruct (for_each _ _ _ _) as [[e|vars2] σ2]; cbn [fst snd] in *; [done|].
      destruct Hr2 as (Hsub2 & Hin2 & Hprov2). split_and!; [by etrans|..].
      * intros url. rewrite fetch_count_app. intros Hpos.
        destruct (decide (0 < fetch_count url evs1)%nat) as [Hp|Hp].
        -- destruct (Hin1 url Hp) as [doc Hdoc].
           exists doc. by eapply lookup_weaken.
        -- apply Hin2. lia.
      * intros url doc [Hd|(body & ? & ?)]%Hprov2.
        -- apply Hprov1 in Hd as [?|(body & ? & ?)]; [by left|right].
           exists body. set_solver.
        -- right. exists body. set_solver.
Qed.

(** Iterations that return, chunk by chunk. *)
Lemma for_each_ok total nodes vars σ vars' σ' :
  Forall (λ l, l < length (heap σ))%nat nodes →
  for_each (enrich_node W total) nodes vars σ = (inr vars', σ') →
  ∃ infos, enriched σ nodes vars vars' σ' infos.
Proof.
  revert vars σ. induction nodes as [|node nodes IH]; intros vars σ Hvalid.
  - cbn [for_each]. eff_unfold. intros [= <- <-]. exists [].
    unfold enriched. cbn. rewrite !(right_id_L [] (++)).
    split_and!; try done. exists []. by rewrite (right_id_L [] (++)).
  - cbn [for_each]. rewrite bind_unfold.
    apply Forall_cons in Hvalid as [Hnode Hvalid].
    destruct (lookup_lt_is_Some_2 _ _ Hnode) as [n Hn].
    rewrite (enrich_node_spec _ _ _ n) by done.
    destruct (enrich_node_outcome W total vars n σ) as [[e|vars1] σ1] eqn:Hstep; [done|].
    intros Hrest.
    apply enrich_node_outcome_ok in Hstep
      as (url & doc & a & evget & Hh1 & Ht1 & _ & _ & _ & Hnew1 & Hdoc & Hurl & Hev).
    pose proof (for_each_trace total nodes vars1 σ1) as (evs0 & _ & _ & _ & Hsub).
    rewrite Hrest in Hsub. cbn [fst] in Hsub. destruct Hsub as [Hsub _].
    apply IH in Hrest as (infos & Hin & Hh & Hnew & (evs & Ht & Hc) & Hdocs).
    2:{ eapply Forall_impl; [exact Hvalid|].
        intros l Hl. cbn beta in *. rewrite Hh1, length_app. cbn. lia. }
    exists ((n, doc, a) :: infos). unfold enriched. split_and!.
    + constructor; [done|].
      clear -Hin Hvalid Hh1. induction Hin as [|l i ls infs Hl _ IHin]; [done|].
      apply Forall_cons in Hvalid as [Hlt ?]. constructor; [|by apply IHin].
      by rewrite Hh1, lookup_app_l in Hl.
    + rewrite Hh, Hh1, <- (assoc_L (++)). done.
    + rewrite Hnew, Hnew1, Hh1, length_app, <- (assoc_L (++)). cbn.
      by rewrite Nat.add_1_r.
    + eexists. split; [by rewrite Ht, Ht1, <- !(assoc_L (++))|].
      cbn [app completions]. rewrite completions_app. cbn [completions map fst snd].
      rewrite Hc. by destruct Hev as [[-> _]|(body & -> & _)].
    + constructor; [|done]. exists url. split; [|done]. by eapply lookup_weaken.
Qed.

(** Nothing raises if every chunk has a SOURCE relationship and the world
    always answers. *)
Lemma for_each_total total nodes vars σ :
  Forall (λ l, ∃ n, heap σ !! l = Some n ∧ SOURCE ∈ map fst (relationships n)) nodes →
  (∀ tr u, is_Some (requests_get W tr u)) →
  (∀ tr p, is_Some (llm_complete W tr p)) →
  ∃ vars' σ', for_each (enrich_node W total) nodes vars σ = (inr vars', σ').
Proof.
  intros Hnodes Hget Hllm. revert vars σ Hnodes.
  induction nodes as [|node nodes IH]; intros vars σ Hnodes.
  - by eexists _, _.
  - apply Forall_cons in Hnodes as [(n & Hn & Hsrc) Hnodes].
    cbn [for_each]. rewrite bind_unfold, (enrich_node_spec _ _ _ n) by done.
    assert (∃ vars1 a, enrich_node_outcome W total vars n σ =
              (inr vars1, {| heap := heap σ ++ [set_context n a];
                             trace := trace (enrich_node_outcome W total vars n σ).2 |}))
      as (vars1 & a & ->).
    { unfold enrich_node_outcome, source_of.
      destruct (relationships_get_key _ _ Hsrc) as [info ->]. cbn [fmap option_fmap option_map].
      set (σ1 := {| heap := heap σ ++ [n]; trace := _ |}).
      assert (∀ cache σ2, heap σ2 = heap σ ++ [n] →
                is_Some (cache !! rel_node_id info) →
                ∃ vars1 a, finish W n (length (heap σ)) vars cache (rel_node_id info) σ2 =
                  (inr vars1, {| heap := heap σ ++ [set_context n a];
                     trace := trace (finish W n (length (heap σ)) vars cache (rel_node_id info) σ2).2 |}))
        as Hfin.
      { intros cache σ2 Hh [doc Hdoc]. unfold finish. rewrite Hdoc.
        destruct (Hllm (trace σ2) (prompt_template doc (text n))) as [a ->].
        eexists _, a. cbn. by rewrite Hh, insert_app_r_alt, Nat.sub_diag. }
      unfold fetch_outcome.
      destruct (web_page_content vars !! rel_node_id info) as [doc|] eqn:Hdoc.
      - apply Hfin; [done|]. by rewrite Hdoc.
      - destruct (Hget (trace σ1) (rel_node_id info)) as [body ->].
        apply Hfin; [done|]. by rewrite lookup_insert_eq. }
    apply IH. eapply Forall_impl; [exact Hnodes|].
    intros l (m & Hm & ?). exists m. split; [|done]. cbn [heap].
    by apply lookup_app_l_Some.
Qed.

(** [__call__] returns what the loop left in [nodes_new], and raises what
    the loop raised. *)
Lemma call_returns nodes σ out σ' :
  __call__ W nodes σ = (inr out, σ') ↔
  ∃ vars', for_each (enrich_node W (length nodes)) nodes initial_locals σ = (inr vars', σ') ∧
           out = nodes_new vars'.
Proof.
  unfold __call__. rewrite bind_unfold.
  destruct (for_each _ _ _ _) as [[e|vars'] σ1]; eff_unfold.
  - split; [done|]. by intros (? & ? & ?).
  - split.
    + intros [= <- <-]. by exists vars'.
    + by intros (? & [= <- <-] & ->).
Qed.

Lemma call_raises nodes σ e σ' :
  __call__ W nodes σ = (inl e, σ') ↔
  for_each (enrich_node W (length nodes)) nodes initial_locals σ = (inl e, σ').
Proof.
  unfold __call__. rewrite bind_unfold.
  destruct (for_each _ _ _ _) as [[e'|vars'] σ1]; eff_unfold; split; congruence.
Qed.

(** *** The claims about the enricher *)

(** C2, as amended.  A run that returns hands back exactly one chunk per
    input chunk, in input order; every output chunk is a newly allocated
    object, different from all others, and no object that existed before
    the run is changed; an output chunk is its input chunk with the
    metadata entry "context" set (to whatever the model answered, the
    empty string included), so its text is the input's text.  And the run
    does return whenever every chunk has a SOURCE relationship and neither
    a fetch nor a generation call raises. *)
Theorem enrichment_returns_fresh_copies nodes σ :
  Forall (λ l, l < length (heap σ))%nat nodes →
  (∀ out σ', __call__ W nodes σ = (inr out, σ') →
     length out = length nodes ∧ NoDup out ∧
     (∀ l n, heap σ !! l = Some n → heap σ' !! l = Some n) ∧
     Forall2 (λ l o, (length (heap σ) ≤ o)%nat ∧
                ∃ n n' c, heap σ !! l = Some n ∧ heap σ' !! o = Some n' ∧
                          n' = set_context n c ∧ text n' = text n ∧
                          metadata n' !! "context" = Some c) nodes out) ∧
  (Forall (λ l, ∃ n, heap σ !! l = Some n ∧ SOURCE ∈ map fst (relationships n)) nodes →
   (∀ tr u, is_Some (requests_get W tr u)) →
   (∀ tr p, is_Some (llm_complete W tr p)) →
   ∃ out σ', __call__ W nodes σ = (inr out, σ')).
Proof.
  intros Hvalid. split.
  - intros out σ' (vars' & Hrun & ->)%call_returns.
    apply for_each_ok in Hrun as (infos & Hin & Hh & Hnew & _ & _); [|done].
    cbn [initial_locals nodes_new app] in Hnew. rewrite Hnew.
    split_and!.
    + by rewrite length_seq.
    + apply NoDup_seq.
    + intros l n Hl. rewrite Hh. by apply lookup_app_l_Some.
    + apply Forall2_same_length_lookup. split; [by rewrite length_seq|].
      intros i l o Hl [-> Hi]%lookup_seq.
      destruct (Forall2_lookup_l _ _ _ _ _ Hin Hl) as ([[n doc] a] & Hinfo & Hn).
      split; [lia|]. exists n, (set_context n a), a. split_and!; try done.
      * rewrite Hh, lookup_app_r by lia.
        replace (length (heap σ) + i - length (heap σ))%nat with i by lia.
        by rewrite list_lookup_fmap, Hinfo.
      * cbn. by rewrite lookup_insert_eq.
  - intros Hsrc Hget Hllm.
    destruct (for_each_total (length nodes) nodes initial_locals σ Hsrc Hget Hllm)
      as (vars' & σ' & Hrun).
    exists (nodes_new vars'), σ'. apply call_returns. eauto.
Qed.

(** C3, as amended.  The value stored under "context" is the model's
    answer exactly as it was returned (nothing is trimmed): chunk by chunk
    it is the answer logged for that chunk's generation call, the logged
    answers are the ones the world gave, and the prompt of that call is the
    template filled with the chunk's text and with the html2text of a page
    fetched in this run, the page of the chunk's own source document if it
    has one. *)
Theorem context_is_response_as_returned nodes σ out σ' :
  Forall (λ l, l < length (heap σ))%nat nodes →
  __call__ W nodes σ = (inr out, σ') →
  ∃ evs, trace σ' = trace σ ++ evs ∧ faithful W (trace σ) evs ∧
    Forall2 (λ o pa, ∃ n' doc, heap σ' !! o = Some n' ∧
                metadata n' !! "context" = Some pa.2 ∧
                pa.1 = prompt_template doc (text n') ∧
                ∃ url body, EvGet url (Some body) ∈ evs ∧
                            doc = html2text W body ∧
                            ∀ u, source_of n' = Some u → u = url)
      out (completions evs).
Proof.
  intros Hvalid (vars' & Hrun & ->)%call_returns.
  pose proof (for_each_trace (length nodes) nodes initial_locals σ)
    as (evs & Ht & Hfaith & _ & Hr).
  rewrite Hrun in Ht, Hr. cbn [fst snd] in Ht, Hr. destruct Hr as (_ & _ & Hprov).
  apply for_each_ok in Hrun as (infos & Hin & Hh & Hnew & (evs' & Ht' & Hc) & Hdocs); [|done].
  assert (evs' = evs) as -> by (apply (app_inv_head (trace σ)); congruence).
  exists evs. split_and!; try done.
  cbn [initial_locals nodes_new app] in Hnew. rewrite Hnew, Hc.
  apply Forall2_same_length_lookup.
  split; [by rewrite length_seq, length_fmap, (Forall2_length _ _ _ Hin)|].
  intros i o pa [-> Hi]%lookup_seq Hpa.
  rewrite list_lookup_fmap in Hpa.
  destruct (infos !! i) as [[[n doc] a]|] eqn:Hinfo; [|done].
  injection Hpa as <-. cbn [fst snd].
  exists (set_context n a), doc. split_and!.
  - rewrite Hh, lookup_app_r by lia.
    replace (length (heap σ) + i - length (heap σ))%nat with i by lia.
    by rewrite list_lookup_fmap, Hinfo.
  - cbn. by rewrite lookup_insert_eq.
  - done.
  - rewrite Forall_lookup in Hdocs.
    destruct (Hdocs _ _ Hinfo) as (url & Hdoc & Hurl). cbn [fst snd] in *.
    apply Hprov in Hdoc as [Hdoc|(body & ? & ?)]; [done|].
    by exists url, body.
Qed.

(** C4, as amended.  A fetch that raises aborts the whole batch: if the
    chunks before [node] were enriched, [node]'s source document is not in
    the cache and [requests.get] raises for it, then [__call__] raises that
    exception; the run stops right after the failed request, so no chunk
    after [node] is looked at, and no list of chunks is returned. *)
Theorem fetch_failure_aborts_batch pre node post σ vars1 σ1 n url :
  let nodes := pre ++ node :: post in
  let progress := EvPrint (node_id n) (node_current_index vars1) (length nodes) in
  for_each (enrich_node W (length nodes)) pre initial_locals σ = (inr vars1, σ1) →
  heap σ1 !! node = Some n →
  source_of n = Some url →
  web_page_content vars1 !! url = None →
  requests_get W (trace σ1 ++ [progress]) url = None →
  __call__ W nodes σ =
    (inl (RequestException url),
     {| heap := heap σ1 ++ [n];
        trace := trace σ1 ++ [progress; EvGet url None] |}).
Proof.
  intros nodes progress Hpre Hn Hsrc Hcache Hget.
  apply call_raises. subst nodes. rewrite for_each_app, Hpre.
  cbn [for_each]. rewrite bind_unfold, (enrich_node_spec _ _ _ n) by done.
  unfold enrich_node_outcome. rewrite Hsrc. unfold fetch_outcome.
  rewrite Hcache. cbn [trace]. fold progress. rewrite Hget.
  unfold log. cbn [heap trace log]. by rewrite <- (assoc_L (++)).
Qed.

(** C6.  In one run [requests.get] is called at most once for every
    document id, whether the run returns or raises; and over any stretch
    of iterations the cache only grows: every entry it had is still there,
    with the same text. *)
Theorem each_document_fetched_at_most_once nodes σ :
  (∃ evs, trace (__call__ W nodes σ).2 = trace σ ++ evs ∧
          ∀ url, (fetch_count url evs ≤ 1)%nat) ∧
  (∀ total vars,
     match for_each (enrich_node W total) nodes vars σ with
     | (inr vars', _) => web_page_content vars ⊆ web_page_content vars'
     | (inl _, _) => True
     end).
Proof.
  split.
  - pose proof (for_each_trace (length nodes) nodes initial_locals σ)
      as (evs & Ht & _ & Hcount & _).
    exists evs. split.
    + unfold __call__. rewrite bind_unfold.
      by destruct (for_each _ _ _ _) as [[e|vars'] σ'].
    + intros url. specialize (Hcount url). cbn in Hcount.
      rewrite lookup_empty in Hcount. done.
  - intros total vars.
    pose proof (for_each_trace total nodes vars σ) as (evs & _ & _ & _ & Hr).
    destruct (for_each _ _ _ _) as [[e|vars'] σ']; [done|]. by destruct Hr.
Qed.

End Facts.

(** *** Concrete runs *)

(** Against C2 as stated: a run in which the model answers with the empty
    string stores an empty "context"; a run in which a fetch raises
    returns no chunks. *)
Lemma enrichment_counterexample :
  ¬ claimed_enrichment world_silent (store_of [chunk_a]) [0] ∧
  ¬ claimed_enrichment world_2022_down (store_of [chunk_a]) [0].
Proof.
  split.
  - intros (out & σ' & Hrun & _ & HF).
    vm_compute in Hrun. injection Hrun as <- <-.
    apply Forall2_cons_1 in HF as [(n & n' & c & _ & _ & Hn' & _ & Hc & Hne) _].
    vm_compute in Hn'. injection Hn' as <-.
    vm_compute in Hc. congruence.
  - intros (out & σ' & Hrun & _). vm_compute in Hrun. discriminate.
Qed.

Lemma enrichment_returns_fresh_copies_witness :
  ∃ out σ',
    __call__ world_ok [0; 1; 2] (store_of [chunk_a; chunk_b; chunk_c]) = (inr out, σ') ∧
    length out = 3%nat ∧
    (∀ l n, [chunk_a; chunk_b; chunk_c] !! l = Some n → heap σ' !! l = Some n).
Proof.
  destruct (enrichment_returns_fresh_copies world_ok [0; 1; 2]
              (store_of [chunk_a; chunk_b; chunk_c])) as [Hpart Htotal].
  { repeat constructor. }
  destruct Htotal as (out & σ' & Hrun).
  { repeat (apply Forall_cons; split;
              [eexists; split; [reflexivity|cbn; left]|]).
    apply Forall_nil_2. }
  { intros tr u. eexists. reflexivity. }
  { intros tr p. eexists. reflexivity. }
  exists out, σ'. destruct (Hpart out σ' Hrun) as (Hlen & _ & Hframe & _).
  split_and!; done.
Defined.

(** Against C3 as stated: the model's answer " ok " is stored with its
    blanks. *)
Lemma trimmed_context_counterexample :
  ¬ claimed_trimmed_context world_ok (store_of [chunk_a]) [0].
Proof.
  intros H.
  assert (__call__ world_ok [0] (store_of [chunk_a]) =
            (inr [1], (__call__ world_ok [0] (store_of [chunk_a])).2)) as Hrun
    by (vm_compute; reflexivity).
  apply H in Hrun. apply Forall_cons in Hrun as [(n' & c & Hn' & Hc & Hstrip) _].
  vm_compute in Hn'. injection Hn' as <-.
  vm_compute in Hc. injection Hc as <-.
  vm_compute in Hstrip. discriminate.
Qed.

Lemma context_is_response_as_returned_witness :
  ∃ evs,
    trace (__call__ world_ok [0; 1] (store_of [chunk_a; chunk_b])).2 = [] ++ evs ∧
    completions evs =
      [(prompt_template ("text:<html>" +:+ letter_2022) "Dear shareholders", " ok ");
       (prompt_template ("text:<html>" +:+ letter_2022) "We invented AWS", " ok ")].
Proof.
  destruct (context_is_response_as_returned world_ok [0; 1]
              (store_of [chunk_a; chunk_b]) [2; 3]
              (__call__ world_ok [0; 1] (store_of [chunk_a; chunk_b])).2)
    as (evs & Ht & _ & _).
  { repeat constructor. }
  { vm_compute. reflexivity. }
  exists evs. split; [exact Ht|].
  vm_compute in Ht. subst evs. vm_compute. reflexivity.
Defined.

(** Against C4 as stated: the 2022 letter cannot be fetched; the chunk of
    the 2023 letter, whose document can be fetched, is left without a
    context. *)
Lemma per_chunk_failure_counterexample :
  ¬ claimed_per_chunk_failure world_2022_down
      (store_of [chunk_a; chunk_c]) [0; 1].
Proof.
  intros H.
  destruct (H 1%nat chunk_c letter_2023) as (o & n' & Hn' & _ & Hctx).
  - right. left.
  - reflexivity.
  - reflexivity.
  - intros tr. eexists. vm_compute. reflexivity.
  - vm_compute in Hn'.
    destruct o as [|[|[|o]]]; cbn in Hn'; try discriminate;
      injection Hn' as <-; vm_compute in Hctx; destruct Hctx; discriminate.
Qed.

Lemma fetch_failure_aborts_batch_witness :
  (__call__ world_2022_down [2; 0; 1]
     (store_of [chunk_a; chunk_b; chunk_c])).1 =
  inl (RequestException letter_2022).
Proof.
  change [2; 0; 1] with ([2] ++ 0 :: [1]).
  erewrite (fetch_failure_aborts_batch world_2022_down [2] 0 [1]
              (store_of [chunk_a; chunk_b; chunk_c])).
  - reflexivity.
  - vm_compute. reflexivity.
  - reflexivity.
  - reflexivity.
  - reflexivity.
  - reflexivity.
Defined.


(** *** More about the enricher *)

Section MoreFacts.

Variable W : World.

Lemma progress_lines_app evs1 evs2 :
  progress_lines (evs1 ++ evs2) = progress_lines evs1 ++ progress_lines evs2.
Proof.
  induction evs1 as [|[| |] evs1 IH]; cbn [progress_lines app]; by rewrite ?IH.
Qed.

Lemma generation_calls_app evs1 evs2 :
  generation_calls (evs1 ++ evs2) = (generation_calls evs1 + generation_calls evs2)%nat.
Proof. unfold generation_calls. by rewrite List.filter_app, length_app. Qed.

(** The events of an iteration that returns. *)
Lemma enrich_node_events_ok total vars n σ vars' σ' :
  enrich_node_outcome W total vars n σ = (inr vars', σ') →
  ∃ evs,
    trace σ' = trace σ ++ evs ∧
    progress_lines evs = [(node_id n, node_current_index vars, total)] ∧
    generation_calls evs = 1%nat ∧
    length (completions evs) = 1%nat ∧
    (∃ n', heap σ' = heap σ ++ [n']) ∧
    length (heap σ') = S (length (heap σ)) ∧
    node_current_index vars' = S (node_current_index vars).
Proof.
  intros (url & doc & a & evget & Hh & Ht & _ & _ & Hidx & _ & _ & _ & Hev)
    %enrich_node_outcome_ok.
  cbn zeta in Ht. rewrite <- (assoc_L (++)) in Ht. cbn [app] in Ht.
  eexists. split; [exact Ht|].
  rewrite Hh, length_app. cbn [length].
  destruct Hev as [[-> _]|(body & -> & _)]; cbn; split_and!; eauto; lia.
Qed.

(** The events of an iteration that raises: its progress line, then no
    further progress line and no answered generation call. *)
Lemma enrich_node_events_err total vars n σ e σ' :
  enrich_node_outcome W total vars n σ = (inl e, σ') →
  ∃ evs,
    trace σ' = trace σ ++
      EvPrint (node_id n) (node_current_index vars) total :: evs ∧
    progress_lines evs = [] ∧ completions evs = [].
Proof.
  unfold enrich_node_outcome, fetch_outcome, finish, log.
  intros H. repeat case_match; simplify_eq; cbn [trace heap];
    rewrite <- ?(assoc_L (++)); cbn [app]; eexists; (split; [reflexivity|]);
    done.
Qed.

(** A stretch of iterations that returns: one progress line and one
    generation call for every chunk, the lines numbered upwards. *)
Lemma for_each_progress_ok total nodes vars σ vars' σ' :
  Forall (λ l, l < length (heap σ))%nat nodes →
  for_each (enrich_node W total) nodes vars σ = (inr vars', σ') →
  ∃ evs,
    trace σ' = trace σ ++ evs ∧
    length (progress_lines evs) = length nodes ∧
    generation_calls evs = length nodes ∧
    ∀ i l, nodes !! i = Some l →
      ∃ n, heap σ !! l = Some n ∧
           progress_lines evs !! i =
             Some (node_id n, (node_current_index vars + i)%nat, total).
Proof.
  revert vars σ. induction nodes as [|node nodes IH]; intros vars σ Hvalid.
  - cbn [for_each]. eff_unfold. intros [= <- <-]. exists [].
    rewrite (right_id_L [] (++)). split_and!; done.
  - cbn [for_each]. rewrite bind_unfold.
    apply Forall_cons in Hvalid as [Hnode Hvalid].
    destruct (lookup_lt_is_Some_2 _ _ Hnode) as [n Hn].
    rewrite (enrich_node_spec _ _ _ _ n) by done.
    destruct (enrich_node_outcome W total vars n σ) as [[e|vars1] σ1] eqn:Hstep;
      [done|].
    intros Hrest.
    apply enrich_node_events_ok in Hstep
      as (evs1 & Ht1 & Hp1 & Hg1 & _ & [n1 Hh1] & Hlen1 & Hidx1).
    apply IH in Hrest as (evs2 & Ht2 & Hp2 & Hg2 & Hlines).
    2:{ eapply Forall_impl; [exact Hvalid|]. intros l Hl. cbn beta in *. lia. }
    exists (evs1 ++ evs2). split_and!.
    + by rewrite Ht2, Ht1, (assoc_L (++)).
    + rewrite progress_lines_app, length_app, Hp1, Hp2. done.
    + rewrite generation_calls_app, Hg1, Hg2. done.
    + intros i l Hl. rewrite progress_lines_app, Hp1.
      destruct i as [|i]; cbn in Hl.
      * injection Hl as <-. exists n. split; [done|]. cbn. by rewrite Nat.add_0_r.
      * destruct (Hlines i l Hl) as (m & Hm & Hline).
        exists m. split.
        -- rewrite Hh1 in Hm. rewrite lookup_app_l in Hm; [done|].
           rewrite Forall_forall in Hvalid. apply Hvalid.
           by eapply list_elem_of_lookup_2.
        -- change (([(node_id n, node_current_index vars, total)] ++
                     progress_lines evs2) !! S i)
             with (progress_lines evs2 !! i).
           rewrite Hline, Hidx1. do 3 f_equal. lia.
Qed.

(** A stretch of iterations that raises stops at the chunk that raised. *)
Lemma for_each_progress_err total nodes vars σ e σ' :
  Forall (λ l, l < length (heap σ))%nat nodes →
  for_each (enrich_node W total) nodes vars σ = (inl e, σ') →
  ∃ evs k l n,
    trace σ' = trace σ ++ evs ∧
    nodes !! k = Some l ∧ heap σ !! l = Some n ∧
    length (completions evs) = k ∧
    length (progress_lines evs) = S k ∧
    progress_lines evs !! k =
      Some (node_id n, (node_current_index vars + k)%nat, total).
Proof.
  revert vars σ. induction nodes as [|node nodes IH]; intros vars σ Hvalid.
  - cbn [for_each]. eff_unfold. done.
  - cbn [for_each]. rewrite bind_unfold.
    apply Forall_cons in Hvalid as [Hnode Hvalid].
    destruct (lookup_lt_is_Some_2 _ _ Hnode) as [n Hn].
    rewrite (enrich_node_spec _ _ _ _ n) by done.
    destruct (enrich_node_outcome W total vars n σ) as [[e1|vars1] σ1] eqn:Hstep.
    + intros [= <- <-].
      apply enrich_node_events_err in Hstep as (evs & Ht & Hp & Hc).
      eexists _, 0%nat, node, n. split; [exact Ht|].
      cbn [progress_lines completions]. rewrite Hp, Hc, Nat.add_0_r. done.
    + intros Hrest.
      pose proof Hstep as Hok.
      apply enrich_node_events_ok in Hstep
        as (evs1 & Ht1 & Hp1 & _ & Hc1 & [n1 Hh1] & Hlen1 & Hidx1).
      apply IH in Hrest as (evs2 & k & l & m & Ht2 & Hl & Hm & Hc2 & Hp2 & Hline).
      2:{ eapply Forall_impl; [exact Hvalid|]. intros l Hl. cbn beta in *. lia. }
      exists (evs1 ++ evs2), (S k), l, m. split_and!.
      * by rewrite Ht2, Ht1, (assoc_L (++)).
      * done.
      * rewrite Hh1 in Hm. rewrite lookup_app_l in Hm; [done|].
        rewrite Forall_forall in Hvalid. apply Hvalid.
        by eapply list_elem_of_lookup_2.
      * rewrite completions_app, length_app, Hc1, Hc2. done.
      * rewrite progress_lines_app, length_app, Hp1, Hp2. done.
      * rewrite progress_lines_app, Hp1.
        change (([(node_id n, node_current_index vars, total)] ++
                   progress_lines evs2) !! S k)
          with (progress_lines evs2 !! k).
        rewrite Hline, Hidx1. do 3 f_equal. lia.
Qed.

(** The cache after an iteration that returns: what it had, and the
    chunk's own source document. *)
Lemma enrich_node_outcome_cache total vars n σ vars' σ' :
  enrich_node_outcome W total vars n σ = (inr vars', σ') →
  ∀ u, is_Some (web_page_content vars' !! u) ↔
       is_Some (web_page_content vars !! u) ∨ source_of n = Some u.
Proof.
  unfold enrich_node_outcome. intros H u.
  assert (∀ cache url σ2,
            finish W n (length (heap σ)) vars cache url σ2 = (inr vars', σ') →
            web_page_content vars' = cache) as Hfin.
  { intros cache url σ2. unfold finish.
    destruct (cache !! url) as [doc|]; [|done].
    destruct (llm_complete W (trace σ2) _) as [a|]; [|done].
    by intros [= <- _]. }
  destruct (source_of n) as [url|] eqn:Hsrc.
  - unfold fetch_outcome in H.
    destruct (web_page_content vars !! url) as [doc|] eqn:Hdoc.
    + apply Hfin in H as ->. split; [by left|].
      intros [?|[= <-]]; [done|]. by eexists.
    + destruct (requests_get W _ url) as [body|]; [|done].
      apply Hfin in H as ->. rewrite lookup_insert_is_Some. split.
      * intros [->|[_ ?]]; [by right|by left].
      * intros [?|[= ->]]; [|by left].
        destruct (decide (url = u)) as [->|]; [by left|by right].
  - destruct (source_url vars) as [url|]; [|done].
    apply Hfin in H as ->. split; [by left|]. by intros [?|?].
Qed.

Lemma for_each_cache_dom total nodes vars σ vars' σ' :
  Forall (λ l, l < length (heap σ))%nat nodes →
  for_each (enrich_node W total) nodes vars σ = (inr vars', σ') →
  ∀ u, is_Some (web_page_content vars' !! u) ↔
       is_Some (web_page_content vars !! u) ∨ referenced σ nodes u.
Proof.
  revert vars σ. induction nodes as [|node nodes IH]; intros vars σ Hvalid.
  - cbn [for_each]. eff_unfold. intros [= <- <-] u. split; [by left|].
    intros [?|(l & n & []%elem_of_nil & _)]. done.
  - cbn [for_each]. rewrite bind_unfold.
    apply Forall_cons in Hvalid as [Hnode Hvalid].
    destruct (lookup_lt_is_Some_2 _ _ Hnode) as [n Hn].
    rewrite (enrich_node_spec _ _ _ _ n) by done.
    destruct (enrich_node_outcome W total vars n σ) as [[e|vars1] σ1] eqn:Hstep;
      [done|].
    intros Hrest u.
    pose proof (enrich_node_outcome_cache _ _ _ _ _ _ Hstep u) as Hc1.
    apply enrich_node_events_ok in Hstep as (_ & _ & _ & _ & _ & [n1 Hh1] & Hlen1 & _).
    assert (∀ l, l ∈ nodes → heap σ1 !! l = heap σ !! l) as Hsame.
    { intros l Hl. rewrite Hh1, lookup_app_l; [done|].
      rewrite Forall_forall in Hvalid. by apply Hvalid. }
    assert (Forall (λ l, l < length (heap σ1))%nat nodes) as Hvalid1.
    { eapply Forall_impl; [exact Hvalid|]. intros l Hl. cbn beta in *. lia. }
    rewrite (IH vars1 σ1 Hvalid1 Hrest u), Hc1. unfold referenced. split.
    + intros [[?|Hsrc]|(l & m & Hl & Hm & Hsrc)]; [by left|right..].
      * exists node, n. split_and!; [by left|done..].
      * exists l, m. rewrite <- Hsame by done. split_and!; [by right|done..].
    + intros [?|(l & m & [->|Hl]%elem_of_cons & Hm & Hsrc)].
      * by left; left.
      * left; right. congruence.
      * right. exists l, m. by rewrite Hsame.
Qed.

Lemma fetch_count_pos url r evs :
  EvGet url r ∈ evs → (0 < fetch_count url evs)%nat.
Proof.
  unfold fetch_count. induction evs as [|e evs IH]; [by intros ?%elem_of_nil|].
  intros [<-|Hin]%elem_of_cons; cbn [List.filter is_get].
  - rewrite bool_decide_eq_true_2 by done. cbn. lia.
  - destruct (is_get url e); cbn; [lia|by apply IH].
Qed.

(** The fetches of a run that returns. *)
Lemma call_fetches nodes σ out σ' :
  Forall (λ l, l < length (heap σ))%nat nodes →
  __call__ W nodes σ = (inr out, σ') →
  ∃ evs,
    trace σ' = trace σ ++ evs ∧
    (∀ l n, heap σ !! l = Some n → heap σ' !! l = Some n) ∧
    (∀ url, referenced σ nodes url → fetch_count url evs = 1%nat) ∧
    (∀ url, ¬ referenced σ nodes url → fetch_count url evs = 0%nat).
Proof.
  intros Hvalid (vars' & Hrun & ->)%call_returns.
  pose proof (for_each_trace W (length nodes) nodes initial_locals σ)
    as (evs & Ht & _ & Hcount & Hr).
  rewrite Hrun in Ht, Hr. cbn [fst snd] in Ht, Hr.
  destruct Hr as (_ & Hin & Hprov).
  pose proof (for_each_cache_dom _ _ _ _ _ _ Hvalid Hrun) as Hdom.
  apply for_each_ok in Hrun as (infos & _ & Hh & _); [|done].
  exists evs. split_and!; [done|..].
  - intros l n Hl. rewrite Hh. by apply lookup_app_l_Some.
  - intros url Href. specialize (Hcount url). cbn in Hcount.
    rewrite lookup_empty in Hcount.
    assert (is_Some (web_page_content vars' !! url)) as [doc Hdoc]
      by (apply Hdom; by right).
    apply Hprov in Hdoc as [Hdoc|(body & Hev%fetch_count_pos & _)]; [done|]. lia.
  - intros url Href.
    destruct (fetch_count url evs) as [|c] eqn:Hc; [done|].
    destruct (Hin url) as [doc Hdoc]; [lia|].
    assert (is_Some (web_page_content vars' !! url)) as Hsome by eauto.
    apply Hdom in Hsome as [[? ?]|?]; done.
Qed.

(** X1.  In a run that returns, one progress line is printed per chunk, in
    input order: the line of the chunk at position [i] (from 0) shows that
    chunk's id, the counter [i + 1] and the number of chunks. *)
Theorem progress_line_per_chunk nodes σ out σ' :
  Forall (λ l, l < length (heap σ))%nat nodes →
  __call__ W nodes σ = (inr out, σ') →
  ∃ evs,
    trace σ' = trace σ ++ evs ∧
    length (progress_lines evs) = length nodes ∧
    ∀ i l, nodes !! i = Some l →
      ∃ n, heap σ !! l = Some n ∧
           progress_lines evs !! i = Some (node_id n, S i, length nodes).
Proof.
  intros Hvalid (vars' & Hrun & ->)%call_returns.
  apply for_each_progress_ok in Hrun as (evs & Ht & Hlen & _ & Hlines); [|done].
  exists evs. split_and!; [done..|]. intros i l Hl.
  destruct (Hlines i l Hl) as (n & Hn & Hline). by exists n.
Qed.

(** X2.  In a run that returns, the generation model is called exactly
    once per chunk, chunks of the same document included: nothing is
    reused between chunks and nothing is retried. *)
Theorem one_generation_call_per_chunk nodes σ out σ' :
  Forall (λ l, l < length (heap σ))%nat nodes →
  __call__ W nodes σ = (inr out, σ') →
  ∃ evs, trace σ' = trace σ ++ evs ∧ generation_calls evs = length nodes.
Proof.
  intros Hvalid (vars' & Hrun & ->)%call_returns.
  apply for_each_progress_ok in Hrun as (evs & Ht & _ & Hcalls & _); [|done].
  by exists evs.
Qed.

(** X3.  In a run that returns, [requests.get] is called exactly once for
    every document that some chunk has as its SOURCE, and never for
    anything else. *)
Theorem referenced_documents_fetched_exactly_once nodes σ out σ' :
  Forall (λ l, l < length (heap σ))%nat nodes →
  __call__ W nodes σ = (inr out, σ') →
  ∃ evs,
    trace σ' = trace σ ++ evs ∧
    (∀ url, referenced σ nodes url → fetch_count url evs = 1%nat) ∧
    (∀ url, ¬ referenced σ nodes url → fetch_count url evs = 0%nat).
Proof.
  intros Hvalid Hrun.
  destruct (call_fetches nodes σ out σ' Hvalid Hrun) as (evs & Ht & _ & H1 & H0).
  by exists evs.
Qed.

(** X4.  The cache lives for one call only: when the enricher is run a
    second time on the same chunks, every document that some chunk has as
    its SOURCE is fetched again, so that over the two runs it has been
    fetched twice. *)
Theorem cache_not_kept_between_runs nodes σ out1 σ1 out2 σ2 :
  Forall (λ l, l < length (heap σ))%nat nodes →
  __call__ W nodes σ = (inr out1, σ1) →
  __call__ W nodes σ1 = (inr out2, σ2) →
  ∃ evs, trace σ2 = trace σ ++ evs ∧
         ∀ url, referenced σ nodes url → fetch_count url evs = 2%nat.
Proof.
  intros Hvalid Hrun1 Hrun2.
  destruct (call_fetches nodes σ out1 σ1 Hvalid Hrun1)
    as (evs1 & Ht1 & Hframe & H1 & _).
  assert (Forall (λ l, l < length (heap σ1))%nat nodes) as Hvalid1.
  { eapply Forall_impl; [exact Hvalid|]. intros l Hl. cbn beta in *.
    destruct (lookup_lt_is_Some_2 _ _ Hl) as [n Hn].
    eapply lookup_lt_Some, Hframe, Hn. }
  destruct (call_fetches nodes σ1 out2 σ2 Hvalid1 Hrun2)
    as (evs2 & Ht2 & _ & H2 & _).
  exists (evs1 ++ evs2). split; [by rewrite Ht2, Ht1, (assoc_L (++))|].
  intros url (l & n & Hl & Hn & Hsrc). rewrite fetch_count_app.
  rewrite H1, H2; [done|..].
  - exists l, n. split_and!; [done|by apply Hframe|done].
  - by exists l, n.
Qed.

(** X5.  A run that raises stops at the chunk it was working on: for some
    position [k], the chunks before it had their generation calls
    answered ([k] answers), the last progress line is the one of the chunk
    at position [k], and no chunk after it is looked at. *)
Theorem failing_run_stops_at_chunk nodes σ e σ' :
  Forall (λ l, l < length (heap σ))%nat nodes →
  __call__ W nodes σ = (inl e, σ') →
  ∃ evs k l n,
    trace σ' = trace σ ++ evs ∧
    nodes !! k = Some l ∧ heap σ !! l = Some n ∧
    length (completions evs) = k ∧
    length (progress_lines evs) = S k ∧
    progress_lines evs !! k = Some (node_id n, S k, length nodes).
Proof.
  intros Hvalid Hrun%call_raises.
  apply for_each_progress_err in Hrun
    as (evs & k & l & n & Ht & Hl & Hn & Hc & Hp & Hline); [|done].
  by exists evs, k, l, n.
Qed.

(** X6.  If the first chunk has no SOURCE relationship, the run stops at
    once with an unbound-variable error: the chunk's progress line has
    been printed and its copy made, nothing has been fetched and the model
    has not been called. *)
Theorem first_chunk_without_source_raises node rest σ n :
  heap σ !! node = Some n →
  SOURCE ∉ map fst (relationships n) →
  __call__ W (node :: rest) σ =
    (inl (UnboundLocalError "source_url"),
     {| heap := heap σ ++ [n];
        trace := trace σ ++ [EvPrint (node_id n) 1 (S (length rest))] |}).
Proof.
  intros Hn Hsrc. apply call_raises. cbn [for_each length].
  rewrite bind_unfold, (enrich_node_spec _ _ _ _ n) by done.
  unfold enrich_node_outcome, source_of.
  by rewrite relationships_get_None.
Qed.

(** X7.  In a run that returns, an output chunk keeps its input chunk's
    node id, its relationships and every metadata entry other than
    "context". *)
Theorem enrichment_keeps_other_fields nodes σ out σ' :
  Forall (λ l, l < length (heap σ))%nat nodes →
  __call__ W nodes σ = (inr out, σ') →
  Forall2 (λ l o, ∃ n n',
             heap σ !! l = Some n ∧ heap σ' !! o = Some n' ∧
             node_id n' = node_id n ∧
             relationships n' = relationships n ∧
             (∀ k, k ≠ "context" → metadata n' !! k = metadata n !! k))
    nodes out.
Proof.
  intros Hvalid (vars' & Hrun & ->)%call_returns.
  apply for_each_ok in Hrun as (infos & Hin & Hh & Hnew & _ & _); [|done].
  cbn [initial_locals nodes_new app] in Hnew. rewrite Hnew.
  apply Forall2_same_length_lookup. split; [by rewrite length_seq|].
  intros i l o Hl [-> Hi]%lookup_seq.
  destruct (Forall2_lookup_l _ _ _ _ _ Hin Hl) as ([[n doc] a] & Hinfo & Hn).
  exists n, (set_context n a). split_and!; try done.
  - rewrite Hh, lookup_app_r by lia.
    replace (length (heap σ) + i - length (heap σ))%nat with i by lia.
    by rewrite list_lookup_fmap, Hinfo.
  - intros k Hk. cbn. by rewrite lookup_insert_ne.
Qed.

End MoreFacts.

(** *** Concrete runs, continued *)

Lemma three_chunks_run :
  __call__ world_ok [0; 1; 2] (store_of [chunk_a; chunk_b; chunk_c]) =
  (inr [3; 4; 5],
   (__call__ world_ok [0; 1; 2] (store_of [chunk_a; chunk_b; chunk_c])).2).
Proof. vm_compute. reflexivity. Defined.

Lemma three_chunks_valid :
  Forall (λ l, l < length (heap (store_of [chunk_a; chunk_b; chunk_c])))%nat
    [0; 1; 2]%nat.
Proof. repeat constructor. Defined.

Lemma progress_line_per_chunk_witness :
  ∃ evs,
    trace (__call__ world_ok [0; 1; 2]
             (store_of [chunk_a; chunk_b; chunk_c])).2 = [] ++ evs ∧
    progress_lines evs = [("a", 1, 3); ("b", 2, 3); ("c", 3, 3)]%nat.
Proof.
  destruct (progress_line_per_chunk world_ok _ _ _ _
              three_chunks_valid three_chunks_run) as (evs & Ht & _).
  exists evs. split; [exact Ht|].
  vm_compute in Ht. subst evs. vm_compute. reflexivity.
Defined.

Lemma one_generation_call_per_chunk_witness :
  ∃ evs,
    trace (__call__ world_ok [0; 1; 2]
             (store_of [chunk_a; chunk_b; chunk_c])).2 = [] ++ evs ∧
    generation_calls evs = 3%nat.
Proof.
  destruct (one_generation_call_per_chunk world_ok _ _ _ _
              three_chunks_valid three_chunks_run) as (evs & Ht & Hcalls).
  exists evs. split; [exact Ht|exact Hcalls].
Defined.

Lemma chunk_a_referenced :
  referenced (store_of [chunk_a; chunk_b; chunk_c]) [0; 1; 2] letter_2022.
Proof. exists 0%nat, chunk_a. split_and!; [left|reflexivity..]. Defined.

Lemma referenced_documents_fetched_exactly_once_witness :
  ∃ evs,
    trace (__call__ world_ok [0; 1; 2]
             (store_of [chunk_a; chunk_b; chunk_c])).2 = [] ++ evs ∧
    fetch_count letter_2022 evs = 1%nat.
Proof.
  destruct (referenced_documents_fetched_exactly_once world_ok _ _ _ _
              three_chunks_valid three_chunks_run) as (evs & Ht & H1 & _).
  exists evs. split; [exact Ht|]. apply H1, chunk_a_referenced.
Defined.

Lemma cache_not_kept_between_runs_witness :
  ∃ evs,
    trace (__call__ world_ok [0; 1; 2]
             (__call__ world_ok [0; 1; 2]
                (store_of [chunk_a; chunk_b; chunk_c])).2).2 = [] ++ evs ∧
    fetch_count letter_2022 evs = 2%nat.
Proof.
  destruct (cache_not_kept_between_runs world_ok [0; 1; 2]
              (store_of [chunk_a; chunk_b; chunk_c]) [3; 4; 5]
              (__call__ world_ok [0; 1; 2]
                 (store_of [chunk_a; chunk_b; chunk_c])).2
              [6; 7; 8]
              (__call__ world_ok [0; 1; 2]
                 (__call__ world_ok [0; 1; 2]
                    (store_of [chunk_a; chunk_b; chunk_c])).2).2)
    as (evs & Ht & H2).
  - exact three_chunks_valid.
  - exact three_chunks_run.
  - vm_compute. reflexivity.
  - exists evs. split; [exact Ht|]. apply H2, chunk_a_referenced.
Defined.

Lemma failing_run_stops_at_chunk_witness :
  ∃ evs,
    trace (__call__ world_2022_down [2; 0; 1]
             (store_of [chunk_a; chunk_b; chunk_c])).2 = [] ++ evs ∧
    progress_lines evs = [("c", 1, 3); ("a", 2, 3)]%nat ∧
    length (completions evs) = 1%nat.
Proof.
  destruct (failing_run_stops_at_chunk world_2022_down [2; 0; 1]
              (store_of [chunk_a; chunk_b; chunk_c])
              (RequestException letter_2022)
              (__call__ world_2022_down [2; 0; 1]
                 (store_of [chunk_a; chunk_b; chunk_c])).2)
    as (evs & k & l & n & Ht & _).
  - repeat constructor.
  - vm_compute. reflexivity.
  - exists evs. split; [exact Ht|].
    vm_compute in Ht. subst evs. vm_compute. split; reflexivity.
Defined.

Lemma first_chunk_without_source_raises_witness :
  (__call__ world_echo [1; 0] (store_of [chunk_a; chunk_orphan])).1 =
  inl (UnboundLocalError "source_url").
Proof.
  rewrite (first_chunk_without_source_raises world_echo 1 [0]
             (store_of [chunk_a; chunk_orphan]) chunk_orphan).
  - reflexivity.
  - reflexivity.
  - cbn. intros [H|H]%elem_of_cons; [discriminate|by apply elem_of_nil in H].
Defined.

Lemma enrichment_keeps_other_fields_witness :
  Forall2 (λ l o, ∃ n n',
             [chunk_a; chunk_b; chunk_c] !! l = Some n ∧
             heap (__call__ world_ok [0; 1; 2]
                     (store_of [chunk_a; chunk_b; chunk_c])).2 !! o = Some n' ∧
             node_id n' = node_id n)
    [0; 1; 2]%nat [3; 4; 5]%nat.
Proof.
  eapply Forall2_impl.
  - exact (enrichment_keeps_other_fields world_ok _ _ _ _
             three_chunks_valid three_chunks_run).
  - intros l o (n & n' & Hn & Hn' & Hid & _). by exists n, n'.
Defined.

End EnricherFacts.

(** ** The hybrid retriever *)

Module RetrieverFacts.
Import Retriever.

Section Facts.

Variable W : World.

(** [_retrieve] with its binds run. *)
Lemma retrieve_spec q σ :
  _retrieve W q σ =
    match vector_retrieve W (trace σ) q with
    | None =>
        (inl (RetrievalError "vector"),
         {| heap := heap σ; trace := trace σ ++ [EvVector q None] |})
    | Some vs =>
        let tr1 := trace σ ++ [EvVector q (Some vs)] in
        match bm25_retrieve W tr1 q with
        | None =>
            (inl (RetrievalError "bm25"),
             {| heap := heap σ ++ [vs]; trace := tr1 ++ [EvBM25 q None] |})
        | Some bs =>
            let tr2 := tr1 ++ [EvBM25 q (Some bs)] in
            match postprocess_nodes W tr2 (vs ++ bs) q with
            | None =>
                (inl (RetrievalError "reranker"),
                 {| heap := heap σ ++ [vs ++ bs; bs];
                    trace := tr2 ++ [EvRerank (vs ++ bs) q None] |})
            | Some out =>
                (inr (2 + length (heap σ))%nat,
                 {| heap := heap σ ++ [vs ++ bs; bs; out];
                    trace := tr2 ++ [EvRerank (vs ++ bs) q (Some out)] |})
            end
        end
    end.
Proof.
  unfold _retrieve, vector_retriever_retrieve, bm25_retriever_retrieve,
    reranker_postprocess_nodes, extend.
  rewrite !bind_unfold. unfold call at 1.
  destruct (vector_retrieve W (trace σ) q) as [vs|]; [|done].
  cbn zeta iota beta. unfold alloc at 1. cbn [heap trace log].
  rewrite !bind_unfold. unfold call at 1. cbn [heap trace log].
  destruct (bm25_retrieve W _ q) as [bs|]; [|done].
  cbn zeta iota beta. unfold alloc at 1. cbn [heap trace log].
  rewrite length_app. cbn [length].
  rewrite <- (assoc_L (++) (heap σ)). cbn [app].
  rewrite !bind_unfold. unfold deref at 1. cbn [heap trace log].
  rewrite (lookup_app_r (heap σ)), Nat.sub_diag by done. cbn [lookup list_lookup].
  rewrite !bind_unfold. unfold deref at 1. cbn [heap trace log].
  rewrite (lookup_app_r (heap σ)) by lia.
  replace (length (heap σ) + 1 - length (heap σ))%nat with 1%nat by lia.
  cbn [lookup list_lookup]. unfold store at 1. cbn [heap trace log].
  rewrite insert_app_r_alt, Nat.sub_diag by done. cbn [insert list_insert].
  rewrite !bind_unfold. unfold deref at 1. cbn [heap trace log].
  rewrite (lookup_app_r (heap σ)), Nat.sub_diag by done. cbn [lookup list_lookup].
  rewrite !bind_unfold. unfold call at 1. cbn [heap trace log].
  destruct (postprocess_nodes W _ (vs ++ bs) q) as [out|]; [|done].
  cbn zeta iota beta. unfold alloc. cbn [heap trace log]. eff_unfold.
  rewrite length_app. cbn [length]. rewrite <- (assoc_L (++) (heap σ)). cbn [app].
  do 2 f_equal. lia.
Qed.

(** C1.  Whatever list the vector retriever returns, the BM25 retriever is
    asked next, with the same query; whatever list that returns, the
    reranker is asked next, once, with the query and with the vector
    candidates followed by the BM25 candidates, nothing removed; and what
    the reranker answers is what [_retrieve] returns. *)
Theorem retrieve_concatenates_and_reranks q σ vs bs :
  vector_retrieve W (trace σ) q = Some vs →
  bm25_retrieve W (trace σ ++ [EvVector q (Some vs)]) q = Some bs →
  let calls := [EvVector q (Some vs); EvBM25 q (Some bs)] in
  let answer := postprocess_nodes W (trace σ ++ calls) (vs ++ bs) q in
  trace (_retrieve W q σ).2 =
    trace σ ++ calls ++ [EvRerank (vs ++ bs) q answer] ∧
  returned (_retrieve W q σ) =
    match answer with
    | Some out => inr (Some out)
    | None => inl (RetrievalError "reranker")
    end.
Proof.
  intros Hv Hb calls answer. rewrite retrieve_spec, Hv. cbn zeta.
  rewrite Hb. subst calls answer.
  rewrite <- !(assoc_L (++)). cbn [app].
  destruct (postprocess_nodes W _ (vs ++ bs) q) as [out|];
    unfold returned; cbn [fst snd heap trace].
  - split; [by rewrite <- (assoc_L (++))|]. rewrite lookup_app_r by lia.
    replace (2 + length (heap σ) - length (heap σ))%nat with 2%nat by lia. done.
  - split; [by rewrite <- ?(assoc_L (++))|done].
Qed.

(** C8.  With collaborators whose answers do not depend on earlier calls,
    [_retrieve] hands back the same thing for the same query from whatever
    store it is started in, in particular when it is run a second time
    after itself; and the second run leaves the list the first run
    returned as it was. *)
Theorem retrieve_twice_same_result q σ :
  history_independent W →
  (∀ σ', returned (_retrieve W q σ') = returned (_retrieve W q σ)) ∧
  (∀ l, (_retrieve W q σ).1 = inr l →
        heap (_retrieve W q (_retrieve W q σ).2).2 !! l =
        heap (_retrieve W q σ).2 !! l).
Proof.
  intros Hind. split.
  - intros σ'. rewrite !retrieve_spec.
    destruct (Hind (trace σ') (trace σ) q) as (-> & _ & _).
    destruct (vector_retrieve W (trace σ) q) as [vs|]; [|done]. cbn zeta.
    destruct (Hind (trace σ' ++ [EvVector q (Some vs)])
                (trace σ ++ [EvVector q (Some vs)]) q) as (_ & -> & _).
    destruct (bm25_retrieve W _ q) as [bs|]; [|done].
    destruct (Hind ((trace σ' ++ [EvVector q (Some vs)]) ++ [EvBM25 q (Some bs)])
                ((trace σ ++ [EvVector q (Some vs)]) ++ [EvBM25 q (Some bs)]) q)
      as (_ & _ & ->).
    destruct (postprocess_nodes W _ (vs ++ bs) q) as [out|]; [|done].
    unfold returned. cbn [fst snd heap]. f_equal.
    rewrite !lookup_app_r by lia.
    by replace (2 + length (heap σ') - length (heap σ'))%nat
      with (2 + length (heap σ) - length (heap σ))%nat by lia.
  - intros l Hl.
    assert (l < length (heap (_retrieve W q σ).2))%nat as Hlt.
    { rewrite retrieve_spec in Hl |- *.
      destruct (vector_retrieve W (trace σ) q) as [vs|]; [|done]. cbn zeta in *.
      destruct (bm25_retrieve W _ q) as [bs|]; [|done].
      destruct (postprocess_nodes W _ (vs ++ bs) q) as [out|]; [|done].
      cbn [fst snd heap] in *. injection Hl as <-.
      rewrite length_app. cbn. lia. }
    set (σ1 := (_retrieve W q σ).2) in *. clearbody σ1. clear Hl.
    rewrite retrieve_spec.
    destruct (vector_retrieve W (trace σ1) q) as [vs|]; [|done]. cbn zeta.
    destruct (bm25_retrieve W _ q) as [bs|];
      [|cbn [snd heap]; by rewrite lookup_app_l].
    destruct (postprocess_nodes W _ (vs ++ bs) q) as [out|];
      cbn [snd heap]; by rewrite lookup_app_l.
Qed.

End Facts.

(** *** The notebook's reranker *)

Section Sorting.

Variable model : string → string → Q.

Lemma insert_by_score_Forall (P : NodeWithScore → Prop) x l :
  P x → Forall P l → Forall P (insert_by_score x l).
Proof.
  intros Hx. induction 1 as [|y l Hy Hl IH]; cbn [insert_by_score].
  - by repeat constructor.
  - destruct (Qle_bool (score y) (score x)); repeat constructor; done.
Qed.

Lemma insert_by_score_sorted x l :
  StronglySorted score_ge l → StronglySorted score_ge (insert_by_score x l).
Proof.
  induction 1 as [|y l Hl IH Hy]; cbn [insert_by_score].
  - repeat constructor.
  - destruct (Qle_bool (score y) (score x)) eqn:Hle.
    + apply Qle_bool_iff in Hle. constructor; [by constructor|].
      constructor; [done|].
      eapply Forall_impl; [exact Hy|]. intros z Hz. unfold score_ge in *.
      by eapply Qle_trans.
    + constructor; [done|]. apply insert_by_score_Forall; [|done].
      unfold score_ge. apply Qlt_le_weak, Qnot_le_lt.
      intros Hle'%Qle_bool_iff. congruence.
Qed.

Lemma sort_by_score_desc_sorted l :
  StronglySorted score_ge (sort_by_score_desc l).
Proof.
  induction l as [|x l IH]; [constructor|].
  by apply insert_by_score_sorted.
Qed.

(** Insertion does not move a candidate past one of the same score. *)
Lemma insert_by_score_filter s x l :
  List.filter (same_score s) (insert_by_score x l) =
  List.filter (same_score s) (x :: l).
Proof.
  induction l as [|y l IH]; [done|]. cbn [insert_by_score].
  destruct (Qle_bool (score y) (score x)) eqn:Hle; [done|].
  cbn [List.filter] in *. rewrite IH.
  destruct (same_score s x) eqn:Hx, (same_score s y) eqn:Hy; try done.
  exfalso. unfold same_score in *.
  apply Qeq_bool_iff in Hx, Hy.
  assert (Qle_bool (score y) (score x) = true); [|congruence].
  apply Qle_bool_iff. rewrite Hx, Hy. apply Qle_refl.
Qed.

Lemma sort_by_score_desc_stable s l :
  List.filter (same_score s) (sort_by_score_desc l) =
  List.filter (same_score s) l.
Proof.
  induction l as [|x l IH]; [done|].
  cbn [sort_by_score_desc foldr]. rewrite insert_by_score_filter.
  cbn [List.filter]. fold (sort_by_score_desc l). by rewrite IH.
Qed.

Lemma StronglySorted_lookup_lt {A} (R : A → A → Prop) l i j a b :
  StronglySorted R l → (i < j)%nat → l !! i = Some a → l !! j = Some b → R a b.
Proof.
  intros Hl. revert i j. induction Hl as [|x l Hl IH Hx]; intros i j Hij Hi Hj.
  - done.
  - destruct j as [|j]; [lia|]. cbn in Hj. destruct i as [|i].
    + cbn in Hi. injection Hi as <-. rewrite Forall_forall in Hx.
      eapply Hx, list_elem_of_lookup_2, Hj.
    + cbn in Hi. eapply IH; [|done..]. lia.
Qed.

(** The reranker's output: bounded, ordered, stable. *)
Lemma ColbertRerank_spec top_n keep nodes q :
  let out := ColbertRerank model top_n keep nodes q in
  (length out ≤ top_n)%nat ∧
  (∀ i j a b, (i ≤ j)%nat → out !! i = Some a → out !! j = Some b →
              (score b <= score a)%Q) ∧
  (∀ s, List.filter (same_score s) out `prefix_of`
        List.filter (same_score s) (map (rescore model keep q) nodes)).
Proof.
  intros out. subst out. unfold ColbertRerank.
  set (l := sort_by_score_desc _). split_and!.
  - rewrite length_take. lia.
  - intros i j a b Hij Hi Hj.
    destruct (decide (i = j)) as [->|Hne].
    { rewrite Hi in Hj. injection Hj as ->. apply Qle_refl. }
    eapply (StronglySorted_lookup_lt score_ge (take top_n l) i j); [|lia|done..].
    eapply StronglySorted_app_1_l. rewrite take_drop.
    apply sort_by_score_desc_sorted.
  - intros s. rewrite <- (sort_by_score_desc_stable s (map _ nodes)). fold l.
    rewrite <- (take_drop top_n l) at 2. rewrite List.filter_app.
    by apply prefix_app_r.
Qed.

(** C7.  With the notebook's reranker, when both sub-retrievers return,
    [_retrieve] returns a list of at most [LLAMA_INDEX_RETRIEVAL_TOP_K] = 5
    candidates whose scores never increase from one position to a later
    one; candidates with equal scores stand in the order they have in the
    concatenation of the vector and the BM25 candidates, and where the
    cut falls among them the earlier ones are kept. *)
Theorem hybrid_output_bounded_sorted_stable W q σ vs bs :
  vector_retrieve W (trace σ) q = Some vs →
  bm25_retrieve W (trace σ ++ [EvVector q (Some vs)]) q = Some bs →
  ∃ out,
    returned (_retrieve (with_colbert_reranker model W) q σ) = inr (Some out) ∧
    (length out ≤ LLAMA_INDEX_RETRIEVAL_TOP_K)%nat ∧
    LLAMA_INDEX_RETRIEVAL_TOP_K = 5%nat ∧
    (∀ i j a b, (i ≤ j)%nat → out !! i = Some a → out !! j = Some b →
                (score b <= score a)%Q) ∧
    (∀ s, List.filter (same_score s) out `prefix_of`
          List.filter (same_score s) (map (rescore model true q) (vs ++ bs))).
Proof.
  intros Hv Hb. exists (colbert_reranker model (vs ++ bs) q). split.
  - unfold returned. rewrite retrieve_spec.
    cbn [vector_retrieve bm25_retrieve postprocess_nodes with_colbert_reranker].
    rewrite Hv. cbn zeta. rewrite Hb. cbn [fst snd heap].
    rewrite lookup_app_r by lia.
    by replace (2 + length (heap σ) - length (heap σ))%nat with 2%nat by lia.
  - destruct (ColbertRerank_spec LLAMA_INDEX_RETRIEVAL_TOP_K true (vs ++ bs) q)
      as (Hlen & Hsorted & Hstable).
    split_and!; done.
Qed.

End Sorting.

(** *** A concrete query *)

Lemma retrieve_concatenates_and_reranks_witness :
  returned (_retrieve example_world "letter" empty_store) =
  inr (Some (colbert_reranker example_model
               (vector_candidates ++ bm25_candidates) "letter")).
Proof.
  destruct (retrieve_concatenates_and_reranks example_world "letter" empty_store
              vector_candidates bm25_candidates eq_refl eq_refl) as [_ Hret].
  exact Hret.
Defined.

Lemma hybrid_output_bounded_sorted_stable_witness :
  ∃ out,
    returned (_retrieve example_world "letter" empty_store) = inr (Some out) ∧
    (length out ≤ 5)%nat.
Proof.
  destruct (hybrid_output_bounded_sorted_stable example_model example_retrievers
              "letter" empty_store vector_candidates bm25_candidates
              eq_refl eq_refl) as (out & Hret & Hlen & _).
  exists out. split; [exact Hret|exact Hlen].
Defined.

Lemma retrieve_twice_same_result_witness :
  returned (_retrieve example_world "letter"
              (_retrieve example_world "letter" empty_store).2) =
  returned (_retrieve example_world "letter" empty_store).
Proof.
  destruct (retrieve_twice_same_result example_world "letter" empty_store)
    as [Hsame _].
  - intros tr tr' query. repeat split; reflexivity.
  - apply Hsame.
Defined.

(** The candidates "a" and "b" are found by both sub-retrievers and both
    copies reach the output; "a" and "b" score the same and stand in the
    order of the concatenated candidates: a, b, b, a. *)
Example retrieve_example :
  match returned (_retrieve example_world "letter" empty_store) with
  | inr (Some out) => map node_id out
  | _ => []
  end = ["c"; "a"; "b"; "b"; "a"].
Proof. vm_compute. reflexivity. Qed.

(** *** More about the hybrid retriever *)

Section MoreFacts.

Variable W : World.

(** X8.  If the vector retriever raises, [_retrieve] raises: neither the
    BM25 retriever nor the reranker is called and no list is built. *)
Theorem vector_failure_skips_the_rest q σ :
  vector_retrieve W (trace σ) q = None →
  _retrieve W q σ =
    (inl (RetrievalError "vector"), log (EvVector q None) σ).
Proof. intros Hv. by rewrite retrieve_spec, Hv. Qed.

(** X9.  If the BM25 retriever raises, [_retrieve] raises: the vector
    candidates are dropped, not returned on their own, and the reranker is
    not called. *)
Theorem bm25_failure_skips_the_reranker q σ vs :
  vector_retrieve W (trace σ) q = Some vs →
  bm25_retrieve W (trace σ ++ [EvVector q (Some vs)]) q = None →
  _retrieve W q σ =
    (inl (RetrievalError "bm25"),
     {| heap := heap σ ++ [vs];
        trace := trace σ ++ [EvVector q (Some vs); EvBM25 q None] |}).
Proof.
  intros Hv Hb. rewrite retrieve_spec, Hv. cbn zeta. rewrite Hb.
  by rewrite <- (assoc_L (++)).
Qed.

(** X10.  [_retrieve] returns a list only if all three collaborators
    answered, and then it is the reranker's answer to the concatenated
    candidates: there is no result made from fewer stages. *)
Theorem retrieve_returns_only_if_all_answer q σ l :
  (_retrieve W q σ).1 = inr l →
  ∃ vs bs out,
    vector_retrieve W (trace σ) q = Some vs ∧
    bm25_retrieve W (trace σ ++ [EvVector q (Some vs)]) q = Some bs ∧
    postprocess_nodes W
      (trace σ ++ [EvVector q (Some vs); EvBM25 q (Some bs)]) (vs ++ bs) q =
      Some out ∧
    heap (_retrieve W q σ).2 !! l = Some out.
Proof.
  rewrite retrieve_spec.
  destruct (vector_retrieve W (trace σ) q) as [vs|]; [|done]. cbn zeta.
  destruct (bm25_retrieve W _ q) as [bs|] eqn:Hb; [|done].
  rewrite <- (assoc_L (++)). cbn [app].
  destruct (postprocess_nodes W _ (vs ++ bs) q) as [out|] eqn:Hout; [|done].
  cbn [fst snd heap]. intros [= <-]. exists vs, bs, out.
  split_and!; [done..|].
  rewrite lookup_app_r by lia.
  match goal with |- _ !! ?i = _ => by replace i with 2%nat by lia end.
Qed.

(** X11.  Whatever its outcome, [_retrieve] leaves every list that existed
    before the call as it was: the in-place [extend] only ever changes the
    list the vector retriever has just returned. *)
Theorem retrieve_leaves_existing_lists q σ l ns :
  heap σ !! l = Some ns →
  heap (_retrieve W q σ).2 !! l = Some ns.
Proof.
  intros Hl. rewrite retrieve_spec.
  destruct (vector_retrieve W (trace σ) q) as [vs|]; [|done]. cbn zeta.
  destruct (bm25_retrieve W _ q) as [bs|];
    [|cbn [snd heap]; by apply lookup_app_l_Some].
  destruct (postprocess_nodes W _ (vs ++ bs) q) as [out|];
    cbn [snd heap]; by apply lookup_app_l_Some.
Qed.

End MoreFacts.

(** *** Concrete queries, continued *)

Lemma vector_failure_skips_the_rest_witness :
  trace (_retrieve {| vector_retrieve := λ _ _, None;
                      bm25_retrieve := λ _ _, Some bm25_candidates;
                      postprocess_nodes := λ _ ns _, Some ns |}
           "letter" empty_store).2 =
  [EvVector "letter" None].
Proof.
  rewrite (vector_failure_skips_the_rest _ "letter" empty_store).
  - reflexivity.
  - reflexivity.
Defined.

Lemma bm25_failure_skips_the_reranker_witness :
  trace (_retrieve {| vector_retrieve := λ _ _, Some vector_candidates;
                      bm25_retrieve := λ _ _, None;
                      postprocess_nodes := λ _ ns _, Some ns |}
           "letter" empty_store).2 =
  [EvVector "letter" (Some vector_candidates); EvBM25 "letter" None].
Proof.
  rewrite (bm25_failure_skips_the_reranker _ "letter" empty_store
             vector_candidates).
  - reflexivity.
  - reflexivity.
  - reflexivity.
Defined.

Lemma retrieve_returns_only_if_all_answer_witness :
  ∃ vs bs out,
    vector_retrieve example_world [] "letter" = Some vs ∧
    bm25_retrieve example_world [EvVector "letter" (Some vs)] "letter" = Some bs ∧
    heap (_retrieve example_world "letter" empty_store).2 !! 2%nat = Some out.
Proof.
  destruct (retrieve_returns_only_if_all_answer example_world "letter"
              empty_store 2%nat eq_refl) as (vs & bs & out & Hv & Hb & _ & Hout).
  by exists vs, bs, out.
Defined.

Lemma retrieve_leaves_existing_lists_witness :
  heap (_retrieve example_world "letter"
          {| heap := [vector_candidates]; trace := [] |}).2 !! 0%nat =
  Some vector_candidates.
Proof.
  apply (retrieve_leaves_existing_lists example_world "letter"
           {| heap := [vector_candidates]; trace := [] |} 0%nat).
  reflexivity.
Defined.

End RetrieverFacts.

(** ** Aggregation of the evaluation results *)

Module EvaluationFacts.
Import Evaluation.

Lemma numbers_of_column k (eval_results : list RetrievalEvalResult) :
  numbers (map (λ d : gmap string Q,
                  match d !! k with Some x => CNum x | None => CNaN end)
             (map metric_vals_dict eval_results)) =
  metric_values k eval_results.
Proof.
  unfold numbers, metric_values.
  induction eval_results as [|r rs IH]; [done|]. cbn [map omap list_omap].
  rewrite IH. by destruct (metric_vals_dict r !! k).
Qed.

Lemma metric_values_length k (eval_results : list RetrievalEvalResult) :
  (∀ r, r ∈ eval_results → is_Some (metric_vals_dict r !! k)) →
  length (metric_values k eval_results) = length eval_results.
Proof.
  unfold metric_values. induction eval_results as [|r rs IH]; intros Hall; [done|].
  cbn [omap list_omap]. destruct (Hall r) as [x ->]; [by left|].
  cbn [length]. rewrite IH; [done|]. intros r' ?. apply Hall. by right.
Qed.

Lemma getitem_present k (eval_results : list RetrievalEvalResult) :
  eval_results ≠ [] →
  (∀ r, r ∈ eval_results → is_Some (metric_vals_dict r !! k)) →
  ∃ col, getitem (map metric_vals_dict eval_results) k = inr col ∧
         mean col = CNum (arithmetic_mean (metric_values k eval_results)).
Proof.
  intros Hne Hall. unfold getitem.
  assert (existsb (λ d : gmap string Q, bool_decide (is_Some (d !! k)))
            (map metric_vals_dict eval_results) = true) as ->.
  { destruct eval_results as [|r rs]; [done|]. cbn [map existsb].
    rewrite bool_decide_eq_true_2; [done|]. apply Hall. by left. }
  eexists. split; [reflexivity|].
  unfold mean. rewrite numbers_of_column.
  pose proof (metric_values_length k eval_results Hall) as Hlen.
  destruct (metric_values k eval_results) as [|x xs]; [|done].
  by destruct eval_results.
Qed.

Lemma mean_columns_present ks (eval_results : list RetrievalEvalResult) :
  eval_results ≠ [] →
  (∀ r k, r ∈ eval_results → k ∈ ks → is_Some (metric_vals_dict r !! k)) →
  mean_columns (map metric_vals_dict eval_results) ks =
    inr (map (λ k, (k, [CNum (arithmetic_mean (metric_values k eval_results))])) ks).
Proof.
  intros Hne. induction ks as [|k ks IH]; intros Hall; [done|].
  cbn [mean_columns map].
  destruct (getitem_present k eval_results Hne) as (col & -> & ->).
  { intros r ?. apply Hall; [done|by left]. }
  rewrite IH; [done|]. intros r k' ? ?. apply Hall; [done|by right].
Qed.

Lemma mean_columns_names full_df ks cols :
  mean_columns full_df ks = inr cols → map fst cols = ks.
Proof.
  revert cols. induction ks as [|k ks IH]; intros cols; cbn [mean_columns].
  - by intros [= <-].
  - destruct (getitem full_df k); [done|].
    destruct (mean_columns full_df ks) as [|cols']; [done|].
    intros [= <-]. cbn. by rewrite (IH cols').
Qed.

(** C9.  For a non-empty list of evaluation results each of which has a
    value for every configured metric, the function returns a frame with
    the columns retrievers, hit_rate, mrr, recall and exactly one row: the
    retriever's name and, for every configured metric, the sum of that
    metric's values over all results divided by the number of results. *)
Theorem print_results_is_mean name eval_results metrics :
  eval_results ≠ [] →
  (∀ r k, r ∈ eval_results → k ∈ LLAMA_INDEX_RETRIEVAL_EVALUATION_METRICS →
          is_Some (metric_vals_dict r !! k)) →
  ∃ df,
    llama_index_evaluation_print_results name eval_results metrics = inr df ∧
    map fst (columns df) =
      "retrievers" :: LLAMA_INDEX_RETRIEVAL_EVALUATION_METRICS ∧
    Forall (λ c, length c.2 = 1%nat) (columns df) ∧
    column df "retrievers" = Some [CStr name] ∧
    ∀ k, k ∈ LLAMA_INDEX_RETRIEVAL_EVALUATION_METRICS →
      length (metric_values k eval_results) = length eval_results ∧
      column df k =
        Some [CNum (Qsum (metric_values k eval_results) /
                    inject_Z (Z.of_nat (length eval_results)))%Q].
Proof.
  intros Hne Hall. unfold llama_index_evaluation_print_results.
  rewrite mean_columns_present by done.
  eexists. split; [reflexivity|]. cbn [columns]. split_and!.
  - done.
  - repeat constructor.
  - done.
  - intros k Hk.
    assert (length (metric_values k eval_results) = length eval_results) as Hlen.
    { apply metric_values_length. intros r ?. by apply Hall. }
    split; [done|]. rewrite <- Hlen. fold (arithmetic_mean (metric_values k eval_results)).
    unfold LLAMA_INDEX_RETRIEVAL_EVALUATION_METRICS in Hk.
    repeat (apply elem_of_cons in Hk as [->|Hk]; [reflexivity|]).
    by apply elem_of_nil in Hk.
Qed.

(** C10.  The [metrics] argument is never read: any two values for it give
    the same result, and the metric columns of a returned frame are those
    of LLAMA_INDEX_RETRIEVAL_EVALUATION_METRICS, in that order. *)
Theorem metrics_argument_is_ignored name eval_results metrics metrics' :
  llama_index_evaluation_print_results name eval_results metrics =
  llama_index_evaluation_print_results name eval_results metrics' ∧
  match llama_index_evaluation_print_results name eval_results metrics with
  | inr df =>
      map fst (columns df) =
        "retrievers" :: LLAMA_INDEX_RETRIEVAL_EVALUATION_METRICS
  | inl _ => True
  end.
Proof.
  split; [reflexivity|]. unfold llama_index_evaluation_print_results.
  destruct (mean_columns _ _) as [e|cols] eqn:Hcols; [done|].
  cbn [columns map fst]. by rewrite (mean_columns_names _ _ _ Hcols).
Qed.

Lemma print_results_is_mean_witness :
  ∃ df,
    llama_index_evaluation_print_results "retriever-original" example_results [] =
      inr df ∧
    column df "mrr" =
      Some [CNum (Qsum (metric_values "mrr" example_results) / inject_Z 3)%Q].
Proof.
  destruct (print_results_is_mean "retriever-original" example_results [])
    as (df & Hdf & _ & _ & _ & Hmean).
  - discriminate.
  - intros r k Hr Hk. unfold example_results in Hr.
    unfold LLAMA_INDEX_RETRIEVAL_EVALUATION_METRICS in Hk.
    repeat (apply elem_of_cons in Hr as [->|Hr];
            [repeat (apply elem_of_cons in Hk as [->|Hk];
                     [vm_compute; eexists; reflexivity|]);
             by apply elem_of_nil in Hk|]).
    by apply elem_of_nil in Hr.
  - exists df. split; [exact Hdf|].
    destruct (Hmean "mrr") as [_ Hmrr]; [right; left|]. exact Hmrr.
Defined.

(** Means of 1, 0, 1 and of 1/2, 0, 1; the [metrics] argument asks for a
    column that is not produced. *)
Example print_results_example :
  llama_index_evaluation_print_results "retriever-original" example_results
    ["precision"] =
  inr {| columns := [("retrievers", [CStr "retriever-original"]);
                     ("hit_rate", [CNum (2 # 3)]);
                     ("mrr", [CNum (3 # 6)]);
                     ("recall", [CNum (2 # 3)])] |}.
Proof. vm_compute. reflexivity. Qed.

(** *** More about the aggregation *)

Lemma has_value_existsb k (eval_results : list RetrievalEvalResult) :
  existsb (λ d : gmap string Q, bool_decide (is_Some (d !! k)))
    (map metric_vals_dict eval_results) = true ↔
  ∃ r, r ∈ eval_results ∧ is_Some (metric_vals_dict r !! k).
Proof.
  induction eval_results as [|r rs IH]; cbn [map existsb].
  - split; [done|]. by intros (r & ?%elem_of_nil & _).
  - rewrite orb_true_iff, IH, bool_decide_eq_true. split.
    + intros [?|(r' & ? & ?)]; [exists r|exists r']; split; try done;
        [by left|by right].
    + intros (r' & [->|?]%elem_of_cons & ?); [by left|right]. by exists r'.
Qed.

Lemma metric_values_nonempty k (eval_results : list RetrievalEvalResult) :
  (∃ r, r ∈ eval_results ∧ is_Some (metric_vals_dict r !! k)) →
  metric_values k eval_results ≠ [].
Proof.
  unfold metric_values. induction eval_results as [|r rs IH].
  - by intros (r & ?%elem_of_nil & _).
  - intros (r' & [->|Hr]%elem_of_cons & Hk); cbn [omap list_omap].
    + by destruct Hk as [x ->].
    + destruct (metric_vals_dict r !! k); [done|]. apply IH. by exists r'.
Qed.

(** Column access: the column's mean if some result has the metric, a
    [KeyError] if none has. *)
Lemma getitem_cases k (eval_results : list RetrievalEvalResult) :
  ((∃ r, r ∈ eval_results ∧ is_Some (metric_vals_dict r !! k)) ∧
   ∃ col, getitem (map metric_vals_dict eval_results) k = inr col ∧
          mean col = CNum (arithmetic_mean (metric_values k eval_results))) ∨
  ((∀ r, r ∈ eval_results → metric_vals_dict r !! k = None) ∧
   getitem (map metric_vals_dict eval_results) k = inl (KeyError k)).
Proof.
  unfold getitem.
  destruct (existsb _ (map metric_vals_dict eval_results)) eqn:Hex.
  - left. apply has_value_existsb in Hex. split; [done|].
    eexists. split; [reflexivity|]. unfold mean. rewrite numbers_of_column.
    pose proof (metric_values_nonempty k eval_results Hex).
    by destruct (metric_values k eval_results).
  - right. split; [|done]. intros r Hr.
    destruct (metric_vals_dict r !! k) as [x|] eqn:Hx; [|done].
    assert (existsb (λ d : gmap string Q, bool_decide (is_Some (d !! k)))
              (map metric_vals_dict eval_results) = true); [|congruence].
    apply has_value_existsb. exists r. by rewrite Hx.
Qed.

(** The comprehension stops at the first metric that no result has. *)
Lemma mean_columns_cases ks (eval_results : list RetrievalEvalResult) :
  ((∀ k, k ∈ ks → ∃ r, r ∈ eval_results ∧ is_Some (metric_vals_dict r !! k)) ∧
   mean_columns (map metric_vals_dict eval_results) ks =
     inr (map (λ k, (k, [CNum (arithmetic_mean (metric_values k eval_results))]))
            ks)) ∨
  (∃ pre k post,
     ks = pre ++ k :: post ∧
     (∀ k', k' ∈ pre →
            ∃ r, r ∈ eval_results ∧ is_Some (metric_vals_dict r !! k')) ∧
     (∀ r, r ∈ eval_results → metric_vals_dict r !! k = None) ∧
     mean_columns (map metric_vals_dict eval_results) ks = inl (KeyError k)).
Proof.
  induction ks as [|k ks IH]; cbn [mean_columns map].
  - left. split; [|done]. by intros k ?%elem_of_nil.
  - destruct (getitem_cases k eval_results)
      as [(Hk & col & -> & ->)|(Hk & ->)].
    + destruct IH as [(Hks & ->)|(pre & k' & post & -> & Hpre & Hnone & ->)].
      * left. split; [|done]. intros k' [->|?]%elem_of_cons; eauto.
      * right. exists (k :: pre), k', post. split_and!; try done.
        intros k'' [->|?]%elem_of_cons; eauto.
    + right. exists [], k, ks. split_and!; try done. by intros k' ?%elem_of_nil.
Qed.

(** X12.  The function returns a frame exactly when every configured
    metric has a value in at least one result.  Otherwise it raises a
    [KeyError] for the first configured metric that no result has; for an
    empty list of results that is "hit_rate". *)
Theorem print_results_raises_on_missing_metric name eval_results metrics :
  (covers eval_results ↔
   ∃ df, llama_index_evaluation_print_results name eval_results metrics = inr df) ∧
  (∀ e, llama_index_evaluation_print_results name eval_results metrics = inl e →
     ∃ pre k post,
       LLAMA_INDEX_RETRIEVAL_EVALUATION_METRICS = pre ++ k :: post ∧
       e = KeyError k ∧
       (∀ r, r ∈ eval_results → metric_vals_dict r !! k = None) ∧
       (∀ k', k' ∈ pre →
              ∃ r, r ∈ eval_results ∧ is_Some (metric_vals_dict r !! k'))) ∧
  llama_index_evaluation_print_results name [] metrics =
    inl (KeyError "hit_rate").
Proof.
  unfold llama_index_evaluation_print_results, covers.
  destruct (mean_columns_cases LLAMA_INDEX_RETRIEVAL_EVALUATION_METRICS
              eval_results)
    as [(Hks & ->)|(pre & k & post & Heq & Hpre & Hnone & ->)].
  - split_and!; [|done..]. split; [eauto|done].
  - split_and!; [| |done].
    + split; [|by intros [? ?]]. intros Hall.
      destruct (Hall k) as (r & Hr & [x Hx]).
      { rewrite Heq. apply elem_of_app. right. by left. }
      rewrite Hnone in Hx by done. done.
    + intros e [= <-]. by exists pre, k, post.
Qed.

(** X13.  In a returned frame the value of a configured metric is the sum
    of the values that are there divided by their number: a result that
    has no value for the metric is passed over and does not count in the
    divisor. *)
Theorem print_results_skips_missing_values name eval_results metrics df k :
  llama_index_evaluation_print_results name eval_results metrics = inr df →
  k ∈ LLAMA_INDEX_RETRIEVAL_EVALUATION_METRICS →
  metric_values k eval_results ≠ [] ∧
  column df k =
    Some [CNum (Qsum (metric_values k eval_results) /
                inject_Z (Z.of_nat (length (metric_values k eval_results))))%Q].
Proof.
  unfold llama_index_evaluation_print_results.
  destruct (mean_columns_cases LLAMA_INDEX_RETRIEVAL_EVALUATION_METRICS
              eval_results)
    as [(Hks & ->)|(pre & k' & post & Heq & Hpre & Hnone & ->)]; [|done].
  intros [= <-] Hk. split; [by apply metric_values_nonempty, Hks|].
  fold (arithmetic_mean (metric_values k eval_results)).
  unfold LLAMA_INDEX_RETRIEVAL_EVALUATION_METRICS in Hk.
  repeat (apply elem_of_cons in Hk as [->|Hk]; [reflexivity|]).
  by apply elem_of_nil in Hk.
Qed.

Lemma Qsum_unit_bounds xs :
  Forall (λ x, 0 <= x ∧ x <= 1)%Q xs →
  (0 <= Qsum xs ∧ Qsum xs <= inject_Z (Z.of_nat (length xs)))%Q.
Proof.
  induction 1 as [|x xs [Hx0 Hx1] _ [IH0 IH1]]; cbn [Qsum foldr length].
  - split; apply Qle_refl.
  - fold (Qsum xs). rewrite Nat2Z.inj_succ. unfold Z.succ.
    rewrite inject_Z_plus. change (inject_Z 1) with 1%Q. split.
    + change 0%Q with (0 + 0)%Q. by apply Qplus_le_compat.
    + rewrite (Qplus_comm (inject_Z _)). by apply Qplus_le_compat.
Qed.

(** X14.  If every value of a configured metric lies between 0 and 1, so
    does the value reported for it. *)
Theorem mean_stays_in_unit_interval name eval_results metrics df k :
  llama_index_evaluation_print_results name eval_results metrics = inr df →
  k ∈ LLAMA_INDEX_RETRIEVAL_EVALUATION_METRICS →
  (∀ r x, r ∈ eval_results → metric_vals_dict r !! k = Some x →
          (0 <= x ∧ x <= 1)%Q) →
  ∃ m, column df k = Some [CNum m] ∧ (0 <= m ∧ m <= 1)%Q.
Proof.
  unfold llama_index_evaluation_print_results.
  destruct (mean_columns_cases LLAMA_INDEX_RETRIEVAL_EVALUATION_METRICS
              eval_results)
    as [(Hks & ->)|(pre & k' & post & Heq & Hpre & Hnone & ->)]; [|done].
  intros [= <-] Hk Hunit.
  pose proof (metric_values_nonempty k eval_results (Hks k Hk)) as Hne.
  exists (arithmetic_mean (metric_values k eval_results)). split.
  { unfold LLAMA_INDEX_RETRIEVAL_EVALUATION_METRICS in Hk.
    repeat (apply elem_of_cons in Hk as [->|Hk]; [reflexivity|]).
    by apply elem_of_nil in Hk. }
  unfold arithmetic_mean.
  assert (Forall (λ x, 0 <= x ∧ x <= 1)%Q (metric_values k eval_results))
    as Hall.
  { unfold metric_values. apply Forall_forall. intros x Hx.
    apply list_elem_of_omap in Hx as (r & Hr & Hx). by eapply Hunit. }
  apply Qsum_unit_bounds in Hall as [H0 H1].
  assert (0 < inject_Z (Z.of_nat (length (metric_values k eval_results))))%Q
    as Hpos.
  { destruct (metric_values k eval_results); [done|].
    unfold Qlt. cbn. lia. }
  split.
  - apply Qle_shift_div_l; [done|]. by rewrite Qmult_0_l.
  - apply Qle_shift_div_r; [done|]. by rewrite Qmult_1_l.
Qed.

(** A list of results that covers the configured metrics gives a frame. *)
Lemma print_results_covered name eval_results metrics :
  covers eval_results →
  llama_index_evaluation_print_results name eval_results metrics =
    inr {| columns :=
             ("retrievers", [CStr name]) ::
             map (λ k, (k, [CNum (arithmetic_mean (metric_values k eval_results))]))
                 LLAMA_INDEX_RETRIEVAL_EVALUATION_METRICS |}.
Proof.
  intros Hall. unfold llama_index_evaluation_print_results.
  destruct (mean_columns_cases LLAMA_INDEX_RETRIEVAL_EVALUATION_METRICS
              eval_results)
    as [(Hks & ->)|(pre & k & post & Heq & Hpre & Hnone & ->)]; [done|].
  destruct (Hall k) as (r & Hr & [x Hx]).
  { rewrite Heq. apply elem_of_app. right. by left. }
  rewrite Hnone in Hx by done. done.
Qed.

(** X15.  The table of the last cell: if each of the four lists of results
    has a value for every configured metric somewhere, the table has the
    columns retrievers, hit_rate, mrr, recall and four rows, one per
    retriever in the order original, enriched, enriched-bm25,
    enriched-hybrid, each with the means of its own list. *)
Theorem results_table_has_one_row_per_retriever
    results results_enriched results_bm25 results_hybrid :
  covers results → covers results_enriched →
  covers results_bm25 → covers results_hybrid →
  ∃ df,
    results_table results results_enriched results_bm25 results_hybrid =
      inr df ∧
    map fst (columns df) =
      "retrievers" :: LLAMA_INDEX_RETRIEVAL_EVALUATION_METRICS ∧
    column df "retrievers" =
      Some [CStr "retriever-original"; CStr "retriever-enriched";
            CStr "retriever-enriched-bm25"; CStr "retriever-enriched-hybrid"] ∧
    ∀ k, k ∈ LLAMA_INDEX_RETRIEVAL_EVALUATION_METRICS →
      column df k =
        Some (map (λ rs, CNum (arithmetic_mean (metric_values k rs)))
                [results; results_enriched; results_bm25; results_hybrid]).
Proof.
  intros H1 H2 H3 H4. unfold results_table.
  rewrite !print_results_covered by done.
  eexists. split; [reflexivity|]. split_and!; [reflexivity..|].
  intros k Hk. unfold LLAMA_INDEX_RETRIEVAL_EVALUATION_METRICS in Hk.
  repeat (apply elem_of_cons in Hk as [->|Hk]; [reflexivity|]).
  by apply elem_of_nil in Hk.
Qed.

(** *** Concrete results, continued *)

Lemma example_results_cover : covers example_results.
Proof.
  intros k Hk. exists (eval_result 1 (1 # 2) 1). split; [left|].
  unfold LLAMA_INDEX_RETRIEVAL_EVALUATION_METRICS in Hk.
  repeat (apply elem_of_cons in Hk as [->|Hk];
          [vm_compute; eexists; reflexivity|]).
  by apply elem_of_nil in Hk.
Defined.

Lemma print_results_skips_missing_values_witness :
  metric_values "recall" partial_results = [1; 0]%Q ∧
  column partial_frame "recall" = Some [CNum ((1 + (0 + 0)) / inject_Z 2)%Q].
Proof.
  destruct (print_results_skips_missing_values "retriever-enriched"
              partial_results [] partial_frame "recall") as [_ Hcol].
  - vm_compute. reflexivity.
  - right. right. left.
  - split; [reflexivity|exact Hcol].
Defined.

Lemma mean_stays_in_unit_interval_witness :
  ∃ m, column partial_frame "mrr" = Some [CNum m] ∧ (0 <= m ∧ m <= 1)%Q.
Proof.
  apply (mean_stays_in_unit_interval "retriever-enriched" partial_results []
           partial_frame "mrr").
  - vm_compute. reflexivity.
  - right. left.
  - intros r x Hr Hx. unfold partial_results in Hr.
    repeat (apply elem_of_cons in Hr as [->|Hr];
            [vm_compute in Hx; injection Hx as <-; split; discriminate|]).
    by apply elem_of_nil in Hr.
Defined.

Lemma results_table_has_one_row_per_retriever_witness :
  ∃ df,
    results_table example_results example_results example_results
      example_results = inr df ∧
    column df "retrievers" =
      Some [CStr "retriever-original"; CStr "retriever-enriched";
            CStr "retriever-enriched-bm25"; CStr "retriever-enriched-hybrid"].
Proof.
  destruct (results_table_has_one_row_per_retriever
              example_results example_results example_results example_results
              example_results_cover example_results_cover
              example_results_cover example_results_cover)
    as (df & Hdf & _ & Hnames & _).
  by exists df.
Defined.

End EvaluationFacts.
